(** * Two loading-spinner widgets: the tick ring, its opacity scheduler and
      its lifecycle

    The repository holds two near-duplicate widgets.

    - [SpinnerA] embeds the RenderController-based widget (options [size],
      [ticks], [speed], [originCompensation]): its scheduler is a
      self-rescheduling [Timer.setTimeout] whose callback [incrementSpinner]
      rotates the list of tick modifiers and reassigns the opacities.
    - [SpinnerB] embeds the View-based widget of [src/Spinner.js] (options
      [lines], [spinSpeed], [fadeDuration], ...): its scheduler is a
      [Timer.setInterval] closure that keeps a phase counter [t].

    Conventions of the embedding.

    - JavaScript numbers that the code uses as counters or indices
      ([i], [t], [ticks], [lines]) are integers ([Z] or [nat]); opacities,
      sizes and durations are exact rationals ([Q]), so [0.1] is one tenth.
    - Angles are kept symbolically: an angle in degrees as the rational that
      is converted to radians by the source, an angle in radians as the
      rational coefficient of [Math.PI].
    - Where a claim names concrete opacity values, the formula is also
      evaluated in IEEE 754 binary64, the arithmetic JavaScript uses.
    - The framework's timer is part of the state: the widgets only register
      callbacks, and a timer event fires one of them.  Wall-clock time is
      abstracted to the order of events. *)

From Stdlib Require Import ZArith QArith Qround Lia Lqa.
From Stdlib Require Import Strings.String.
From Stdlib Require Import Floats.PrimFloat.
From stdpp Require Import base numbers list.

Set Default Proof Using "Type".
Set Warnings "-inexact-float".

(** Outcome of running a method or a callback: the new state, or an uncaught
    [TypeError] (calling a method of [undefined], calling a non-function). *)
Inductive result (S : Type) : Type :=
| Ok (s : S)
| TypeError.
Arguments Ok {S} s.
Arguments TypeError {S}.

Definition bind {S T : Type} (r : result S) (k : S -> result T) : result T :=
  match r with
  | Ok s => k s
  | TypeError => TypeError
  end.

(** [Math.round]: the nearest integer, halves rounded up. *)
Definition Math_round (x : Q) : Z := Qfloor (x + (1 # 2))%Q.

(* ===================================================================== *)
(** * The RenderController-based widget (tick marks on a circle)          *)
(* ===================================================================== *)
Module SpinnerA.

Local Open Scope Q_scope.

(** The two transforms the constructor builds.  [translate_polar r a] is
    [Transform.translate(r * cos(a * PI / 180), r * sin(a * PI / 180), 0)];
    [rotateZ c] is [Transform.rotateZ(c * PI)]. *)
Inductive Transform : Type :=
| translate_polar (radius degrees : Q)
| rotateZ (c : Q).

(** A [StateModifier]: a transform fixed at construction and an opacity. *)
Record StateModifier : Type := mkStateModifier {
  transform : Transform;
  opacity : Q
}.

Definition setOpacity (v : Q) (m : StateModifier) : StateModifier :=
  {| transform := transform m; opacity := v |}.

Record Surface : Type := mkSurface {
  surface_size : Z * Z;
  backgroundColor : string
}.

(** One [renderNode.add(opacityModifier).add(rotationModifier).add(surface)]
    chain; the opacity modifier is shared with [tickOpacityModifiers], so the
    chain holds a reference to it. *)
Record RenderChain : Type := mkRenderChain {
  chain_opacityModifier : nat;
  chain_rotationModifier : StateModifier;
  chain_surface : Surface
}.

Record Options : Type := mkOptions {
  size : Q * Q;
  ticks : Z;
  speed : Q;
  originCompensation : bool;
  color : string
}.

Definition DEFAULT_OPTIONS : Options :=
  {| size := (30, 30); ticks := 12; speed := 100;
     originCompensation := false; color := "grey" |}.

(** The options object a caller passes: every field may be left undefined. *)
Record UserOptions : Type := mkUserOptions {
  user_size : option (Q * Q);
  user_ticks : option Z;
  user_speed : option Q;
  user_originCompensation : option bool;
  user_color : option string
}.

Definition setOptions (options : UserOptions) (this : Options) : Options :=
  {| size := default (size this) (user_size options);
     ticks := default (ticks this) (user_ticks options);
     speed := default (speed this) (user_speed options);
     originCompensation :=
       default (originCompensation this) (user_originCompensation options);
     color := default (color this) (user_color options) |}.

Definition OFF : Z := 0.
Definition ON : Z := 1.

(** The widget together with the part of the world it acts on.
    [modifiers] is the store of the opacity [StateModifier] objects, in
    allocation order, which is the angular order around the circle;
    [tickOpacityModifiers] is the array of references the scheduler rotates;
    [timeouts] counts the [Timer.setTimeout(incrementSpinner)] callbacks that
    are registered and have not fired yet. *)
Record Spinner : Type := mkSpinner {
  options : Options;
  spinnerState : Z;
  tickOpacityModifiers : list nat;
  modifiers : list StateModifier;
  renderNode : list RenderChain;
  shown : bool;
  timeouts : nat
}.

(** [i / this.options.ticks + 0.1], the falloff used by the constructor and
    by [incrementSpinner]. *)
Definition tick_opacity (ticks : Z) (i : nat) : Q :=
  inject_Z (Z.of_nat i) / inject_Z ticks + 0.1.

(** The same expression in IEEE 754 binary64, the arithmetic of JavaScript
    numbers, for evaluating it on concrete inputs. *)
Definition tick_opacity_binary64 (ticks i : PrimFloat.float) : PrimFloat.float :=
  (i / ticks + 0.1)%float.

(** Body of the constructor's loop for index [i]. *)
Definition add_tick (tickWidth tickHeight : Z) (angleIncrement circleRadius : Q)
    (this : Spinner) (i : nat) : Spinner :=
  let n := inject_Z (Z.of_nat i) in
  let rotationModifier :=
    {| transform := rotateZ ((1 # 2) + 1 / inject_Z (ticks (options this)) * 2 * n);
       opacity := 1 |} in
  let opacityModifier :=
    {| transform := translate_polar circleRadius (angleIncrement * n);
       opacity := tick_opacity (ticks (options this)) i |} in
  let ref := length (modifiers this) in
  let surface :=
    {| surface_size := (tickWidth, tickHeight);
       backgroundColor := color (options this) |} in
  {| options := options this;
     spinnerState := spinnerState this;
     tickOpacityModifiers := tickOpacityModifiers this ++ [ref];
     modifiers := modifiers this ++ [opacityModifier];
     renderNode := renderNode this ++
       [ {| chain_opacityModifier := ref;
            chain_rotationModifier := rotationModifier;
            chain_surface := surface |} ];
     shown := shown this;
     timeouts := timeouts this |}.

Definition angleIncrement (o : Options) : Q := 360 / inject_Z (ticks o).

(** [(originCompensation && (tickHeight / 2)) || 0]: a zero half-height is
    falsy and gives [0] as well. *)
Definition radiusCompensation (o : Options) (tickHeight : Z) : Q :=
  if originCompensation o then inject_Z tickHeight / 2 else 0.

Definition circleRadius (o : Options) (tickHeight : Z) : Q :=
  fst (size o) * 0.55 - radiusCompensation o tickHeight.

(** [RenderController.apply] installs [DEFAULT_OPTIONS];
    [if (options) this.setOptions(options)] overrides them. *)
Definition resolve (user : option UserOptions) : Options :=
  match user with
  | Some u => setOptions u DEFAULT_OPTIONS
  | None => DEFAULT_OPTIONS
  end.

(** The constructor.  The loop [for (i = 0; i < ticks; i++)] runs
    [Z.to_nat ticks] times (not at all when [ticks <= 0]). *)
Definition new (user : option UserOptions) : Spinner :=
  let o := resolve user in
  let tickWidth := Math_round (fst (size o) * 0.05) in
  let tickHeight := Math_round (snd (size o) * 0.3) in
  fold_left
    (add_tick tickWidth tickHeight (angleIncrement o) (circleRadius o tickHeight))
    (seq 0 (Z.to_nat (ticks o)))
    {| options := o; spinnerState := OFF; tickOpacityModifiers := [];
       modifiers := []; renderNode := []; shown := false; timeouts := 0 |}.

(** [start]: the run state becomes ON, [show(renderNode)], and one
    [Timer.setTimeout(incrementSpinner, speed)] is registered. *)
Definition start (this : Spinner) : Spinner :=
  {| options := options this;
     spinnerState := ON;
     tickOpacityModifiers := tickOpacityModifiers this;
     modifiers := modifiers this;
     renderNode := renderNode this;
     shown := true;
     timeouts := S (timeouts this) |}.

(** [stop]: the run state becomes OFF and [hide(renderNode)]; no timer is
    touched. *)
Definition stop (this : Spinner) : Spinner :=
  {| options := options this;
     spinnerState := OFF;
     tickOpacityModifiers := tickOpacityModifiers this;
     modifiers := modifiers this;
     renderNode := renderNode this;
     shown := false;
     timeouts := timeouts this |}.

(** [for (i = 0; i < l.length; i++) l[i].setOpacity(i / ticks + 0.1)],
    started at index [i] on the rest [l] of the array.  Each reference [r]
    names an object of the store, which [setOpacity] updates in place. *)
Fixpoint reassign (ticks : Z) (i : nat) (l : list nat)
    (store : list StateModifier) : list StateModifier :=
  match l with
  | [] => store
  | r :: l' =>
      reassign ticks (S i) l' (alter (setOpacity (tick_opacity ticks i)) r store)
  end.

(** [incrementSpinner].  On an empty array [shift()] returns [undefined],
    which is pushed back, and the loop then calls [setOpacity] on it: an
    uncaught [TypeError]. *)
Definition incrementSpinner (this : Spinner) : result Spinner :=
  match tickOpacityModifiers this with
  | [] => TypeError
  | first :: rest =>
      let l := rest ++ [first] in
      Ok {| options := options this;
            spinnerState := spinnerState this;
            tickOpacityModifiers := l;
            modifiers := reassign (ticks (options this)) 0 l (modifiers this);
            renderNode := renderNode this;
            shown := shown this;
            timeouts := if (spinnerState this =? ON)%Z
                        then S (timeouts this) else timeouts this |}
  end.

(** The timer dispatches one pending timeout: it is removed and its callback
    runs.  With nothing pending, nothing fires. *)
Definition fire (this : Spinner) : result Spinner :=
  match timeouts this with
  | O => Ok this
  | S n =>
      incrementSpinner
        {| options := options this;
           spinnerState := spinnerState this;
           tickOpacityModifiers := tickOpacityModifiers this;
           modifiers := modifiers this;
           renderNode := renderNode this;
           shown := shown this;
           timeouts := n |}
  end.

(** What can happen to the widget: a call of [start()] or [stop()], or the
    timer firing a pending timeout. *)
Inductive event : Type :=
| Start
| Stop
| Timeout.

Definition step (e : event) (this : Spinner) : result Spinner :=
  match e with
  | Start => Ok (start this)
  | Stop => Ok (stop this)
  | Timeout => fire this
  end.

Fixpoint run (es : list event) (this : Spinner) : result Spinner :=
  match es with
  | [] => Ok this
  | e :: es' => bind (step e this) (run es')
  end.

(** Opacity of every tick in angular order (the order of the store). *)
Definition opacities (this : Spinner) : list Q := opacity <$> modifiers this.

(** Opacity of the tick that the array holds at position [i]. *)
Definition opacity_at (this : Spinner) (i : nat) : option Q :=
  r ← tickOpacityModifiers this !! i; opacity <$> modifiers this !! r.

(** The angle, in degrees, at which a tick is placed. *)
Definition degrees_of (m : StateModifier) : Q :=
  match transform m with
  | translate_polar _ d => d
  | rotateZ _ => 0
  end.

Definition with_ticks (n : Z) : option UserOptions :=
  Some {| user_size := None; user_ticks := Some n; user_speed := None;
          user_originCompensation := None; user_color := None |}.

Local Close Scope Q_scope.

End SpinnerA.

(* ===================================================================== *)
(** * The View-based widget of src/Spinner.js (spin lines)                *)
(* ===================================================================== *)
Module SpinnerB.

Local Open Scope Q_scope.

(** [rotateZ c] is [Transform.rotateZ(c * Math.PI)]. *)
Inductive Transform : Type :=
| rotateZ (c : Q)
| translate (x y z : Q).

(** The values a caller passes for [t] and [cb]. *)
Inductive value : Type :=
| undefined
| number (q : Q)
| function (f : nat).

(** An animated [setOpacity(target, {duration, curve}, callback)] that has
    not completed yet.  [transition_callback] is [Some cb] for
    [this.stop.bind(this, cb)] and [None] for [null]. *)
Record Transition : Type := mkTransition {
  target : Q;
  duration : value;
  curve : string;
  transition_callback : option value
}.

(** A [Modifier]: transform, current opacity, and the queue of opacity
    transitions still to complete. *)
Record Modifier : Type := mkModifier {
  transform : Transform;
  opacity : Q;
  queue : list Transition
}.

(** [m.setOpacity(v, transition, callback)].  Without a transition the
    opacity is set at once, which also drops transitions still queued; with
    one, the opacity moves to [v] when the transition completes. *)
Definition setOpacity (v : Q) (transition : option (value * string))
    (callback : option value) (m : Modifier) : Modifier :=
  match transition with
  | None => {| transform := transform m; opacity := v; queue := [] |}
  | Some (d, c) =>
      {| transform := transform m; opacity := opacity m;
         queue := queue m ++
           [ {| target := v; duration := d; curve := c;
                transition_callback := callback |} ] |}
  end.

Record Options : Type := mkOptions {
  lines : Z;
  lineWidth : Q;
  lineHeight : Q;
  centerOffset : Q;
  borderRadius : Q;
  backgroundColor : string;
  spinSpeed : Q;
  fadeDuration : Q;
  fadeCurve : string
}.

Definition DEFAULT_OPTIONS : Options :=
  {| lines := 12; lineWidth := 9; lineHeight := 3; centerOffset := 15;
     borderRadius := 2; backgroundColor := "white"; spinSpeed := 90;
     fadeDuration := 1000; fadeCurve := "easeOut" |}.

Record Surface : Type := mkSurface {
  surface_size : Q * Q;
  surface_backgroundColor : string;
  surface_borderRadius : Q
}.

(** One [this._add(rotateModifier).add(spinLineModifier).add(spinLineSurface)]
    chain, by the indices of the two modifiers in their arrays. *)
Record RenderChain : Type := mkRenderChain {
  chain_rotateModifier : nat;
  chain_spinLineModifier : nat;
  chain_surface : Surface
}.

(** A registered [Timer.setInterval] callback: its handle and the variables
    [count] and [t] its closure captured in [start]. *)
Record Interval : Type := mkInterval {
  handle : nat;
  count : nat;
  t : Z
}.

(** The widget together with the part of the world it acts on: the
    registered intervals, the pending [spin] timeouts (each is
    [this.stop.bind(this, cb)], kept as its [cb]), the next fresh timer
    handle, and the log of the caller's callbacks that were invoked. *)
Record Spinner : Type := mkSpinner {
  options : Options;
  spinLineModifiers : list Modifier;
  rotateModifiers : list Modifier;
  renderTree : list RenderChain;
  spinInterval : option nat;
  intervals : list Interval;
  stop_timeouts : list value;
  next_handle : nat;
  calls : list nat
}.

(** [_spinLineOpacity(i, t, count)]; [%] is the truncating remainder. *)
Definition _spinLineOpacity (i t count : Z) : Q :=
  let pos := 1 - inject_Z (Z.rem (count - i + t) count) / inject_Z count in
  pos * pos * 0.9 + 0.1.

(** Body of the loop of [_createSpinLineSurfaces] for index [i]. *)
Definition add_line (count : Z) (rotationOffset : Q) (this : Spinner) (i : nat)
    : Spinner :=
  let spinLineSurface :=
    {| surface_size := (lineWidth (options this), lineHeight (options this));
       surface_backgroundColor := backgroundColor (options this);
       surface_borderRadius := borderRadius (options this) |} in
  let rotateModifier :=
    {| transform := rotateZ (rotationOffset * inject_Z (Z.of_nat i));
       opacity := 1; queue := [] |} in
  let spinLineModifier :=
    {| transform := translate (centerOffset (options this)) 0 0;
       opacity := _spinLineOpacity (Z.of_nat i) 0 count; queue := [] |} in
  {| options := options this;
     spinLineModifiers := spinLineModifiers this ++ [spinLineModifier];
     rotateModifiers := rotateModifiers this ++ [rotateModifier];
     renderTree := renderTree this ++
       [ {| chain_rotateModifier := length (rotateModifiers this);
            chain_spinLineModifier := length (spinLineModifiers this);
            chain_surface := spinLineSurface |} ];
     spinInterval := spinInterval this;
     intervals := intervals this;
     stop_timeouts := stop_timeouts this;
     next_handle := next_handle this;
     calls := calls this |}.

(** [rotationOffset = 2 * Math.PI / count], as a coefficient of [Math.PI]. *)
Definition rotationOffset (count : Z) : Q := 2 / inject_Z count.

(** The constructor: [View.apply] installs the options (the caller's merged
    over [DEFAULT_OPTIONS] by the framework), then
    [_createSpinLineSurfaces] builds the lines. *)
Definition _createSpinLineSurfaces (o : Options) : Spinner :=
  let count := lines o in
  fold_left (add_line count (rotationOffset count)) (seq 0 (Z.to_nat count))
    {| options := o; spinLineModifiers := []; rotateModifiers := [];
       renderTree := []; spinInterval := None; intervals := [];
       stop_timeouts := []; next_handle := 0; calls := [] |}.

Definition new (o : Options) : Spinner := _createSpinLineSurfaces o.

Definition set_spinLineModifiers (l : list Modifier) (this : Spinner) : Spinner :=
  {| options := options this; spinLineModifiers := l;
     rotateModifiers := rotateModifiers this; renderTree := renderTree this;
     spinInterval := spinInterval this; intervals := intervals this;
     stop_timeouts := stop_timeouts this; next_handle := next_handle this;
     calls := calls this |}.

Definition set_rotateModifiers (l : list Modifier) (this : Spinner) : Spinner :=
  {| options := options this; spinLineModifiers := spinLineModifiers this;
     rotateModifiers := l; renderTree := renderTree this;
     spinInterval := spinInterval this; intervals := intervals this;
     stop_timeouts := stop_timeouts this; next_handle := next_handle this;
     calls := calls this |}.

Definition set_intervals (l : list Interval) (this : Spinner) : Spinner :=
  {| options := options this; spinLineModifiers := spinLineModifiers this;
     rotateModifiers := rotateModifiers this; renderTree := renderTree this;
     spinInterval := spinInterval this; intervals := l;
     stop_timeouts := stop_timeouts this; next_handle := next_handle this;
     calls := calls this |}.

Definition set_stop_timeouts (l : list value) (this : Spinner) : Spinner :=
  {| options := options this; spinLineModifiers := spinLineModifiers this;
     rotateModifiers := rotateModifiers this; renderTree := renderTree this;
     spinInterval := spinInterval this; intervals := intervals this;
     stop_timeouts := l; next_handle := next_handle this;
     calls := calls this |}.

(** [Timer.clear(h)]: the callback registered under [h] is removed. *)
Definition Timer_clear (h : nat) (this : Spinner) : Spinner :=
  set_intervals (filter (fun iv => handle iv ≠ h) (intervals this)) this.

Definition truthy (v : value) : bool :=
  match v with
  | undefined => false
  | number q => negb (Qeq_bool q 0)
  | function _ => true
  end.

(** [cb()]: a function is invoked (the log records it; the caller's code is
    taken not to touch the widget); anything else is not callable. *)
Definition call (cb : value) (this : Spinner) : result Spinner :=
  match cb with
  | function f =>
      Ok {| options := options this;
            spinLineModifiers := spinLineModifiers this;
            rotateModifiers := rotateModifiers this;
            renderTree := renderTree this;
            spinInterval := spinInterval this;
            intervals := intervals this;
            stop_timeouts := stop_timeouts this;
            next_handle := next_handle this;
            calls := calls this ++ [f] |}
  | _ => TypeError
  end.

Definition stop (cb : value) (this : Spinner) : result Spinner :=
  let this' := match spinInterval this with
               | Some h => Timer_clear h this
               | None => this
               end in
  if truthy cb then call cb this' else Ok this'.

(** [start]: a new interval closure with [count] and [t = 0] is registered
    and its handle stored in [spinInterval]. *)
Definition start (this : Spinner) : Spinner :=
  let count := length (spinLineModifiers this) in
  let h := next_handle this in
  {| options := options this;
     spinLineModifiers := spinLineModifiers this;
     rotateModifiers := rotateModifiers this;
     renderTree := renderTree this;
     spinInterval := Some h;
     intervals := intervals this ++ [ {| handle := h; count := count; t := 0 |} ];
     stop_timeouts := stop_timeouts this;
     next_handle := S h;
     calls := calls this |}.

(** [for (i = 0; i < count; i++)
       spinLineModifiers[i].setOpacity(_spinLineOpacity(i, t, count))]. *)
Definition set_line_opacities (t : Z) (count : nat) (l : list Modifier)
    : list Modifier :=
  fold_left
    (fun l i =>
       alter (setOpacity (_spinLineOpacity (Z.of_nat i) t (Z.of_nat count))
                None None) i l)
    (seq 0 count) l.

(** The interval callback of [start] for the closure [iv]; an index past the
    end of the array would read [undefined]. *)
Definition interval_callback (iv : Interval) (this : Spinner) : result Spinner :=
  if decide (count iv ≤ length (spinLineModifiers this))%nat then
    Ok (set_intervals
          (fmap (fun iv' => if decide (handle iv' = handle iv)
                            then {| handle := handle iv; count := count iv;
                                    t := (t iv + 1)%Z |}
                            else iv')
                (intervals this))
          (set_spinLineModifiers
             (set_line_opacities (t iv) (count iv) (spinLineModifiers this))
             this))
  else TypeError.

(** [spin(t, cb)]. *)
Definition spin (t : value) (cb : value) (this : Spinner) : Spinner :=
  let this' := start this in
  set_stop_timeouts (stop_timeouts this' ++ [cb]) this'.

(** [fade(t, cb)], called with the argument list [arguments]. *)
Definition fade (arguments : list value) (this : Spinner) : Spinner :=
  let t := default undefined (arguments !! 0%nat) in
  let cb := default undefined (arguments !! 1%nat) in
  let '(t, cb) :=
    if (length arguments =? 1)%nat
    then (number (fadeDuration (options this)), t)
    else (t, cb) in
  let count := length (rotateModifiers this) in
  let options' := (t, fadeCurve (options this)) in
  set_rotateModifiers
    (fold_left
       (fun l i =>
          alter (setOpacity 0 (Some options')
                   (if (i =? 0)%nat then Some cb else None)) i l)
       (seq 0 count) (rotateModifiers this))
    this.

(** [reset(cb)]; the two arrays are indexed by the length of the first. *)
Definition reset (cb : value) (this : Spinner) : result Spinner :=
  let count := length (spinLineModifiers this) in
  if decide (count ≤ length (rotateModifiers this))%nat then
    stop cb
      (set_rotateModifiers
         (fold_left (fun l i => alter (setOpacity 1 None None) i l)
            (seq 0 count) (rotateModifiers this))
         (set_spinLineModifiers
            (set_line_opacities 0 count (spinLineModifiers this)) this))
  else TypeError.

(** Completion of the first queued transition of [rotateModifiers[i]]: the
    opacity reaches the target and the completion callback, if any, runs. *)
Definition transition_end (i : nat) (this : Spinner) : result Spinner :=
  match rotateModifiers this !! i with
  | Some m =>
      match queue m with
      | [] => Ok this
      | tr :: q =>
          let m' := {| transform := transform m; opacity := target tr;
                       queue := q |} in
          let this' := set_rotateModifiers (<[i := m']> (rotateModifiers this))
                         this in
          match transition_callback tr with
          | Some cb => stop cb this'
          | None => Ok this'
          end
      end
  | None => Ok this
  end.

(** What can happen to the widget: a call of one of its methods, an
    interval firing ([Tick h]), a [spin] timeout firing ([SpinTimeout k],
    the [k]-th pending one), or the first queued transition of
    [rotateModifiers[i]] completing ([TransitionEnd i]). *)
Inductive event : Type :=
| Start
| Stop (cb : value)
| Spin (t cb : value)
| Fade (arguments : list value)
| Reset (cb : value)
| Tick (h : nat)
| SpinTimeout (k : nat)
| TransitionEnd (i : nat).

(** One event.  A timer event for a callback that is not registered does
    not happen. *)
Definition step (e : event) (this : Spinner) : result Spinner :=
  match e with
  | Start => Ok (start this)
  | Stop cb => stop cb this
  | Spin t cb => Ok (spin t cb this)
  | Fade arguments => Ok (fade arguments this)
  | Reset cb => reset cb this
  | Tick h =>
      match list_find (fun iv => handle iv = h) (intervals this) with
      | Some (_, iv) => interval_callback iv this
      | None => Ok this
      end
  | SpinTimeout k =>
      match stop_timeouts this !! k with
      | Some cb => stop cb (set_stop_timeouts (delete k (stop_timeouts this)) this)
      | None => Ok this
      end
  | TransitionEnd i => transition_end i this
  end.

Fixpoint run (es : list event) (this : Spinner) : result Spinner :=
  match es with
  | [] => Ok this
  | e :: es' => bind (step e this) (run es')
  end.

(** Opacity of every spin line, in angular order. *)
Definition opacities (this : Spinner) : list Q :=
  opacity <$> spinLineModifiers this.

(** Opacity of every rotate modifier (the lines' visibility). *)
Definition visibilities (this : Spinner) : list Q :=
  opacity <$> rotateModifiers this.

(** The angle, in degrees, by which a rotate modifier turns its line:
    [rotateZ c] turns by [c * Math.PI] radians. *)
Definition degrees_of (m : Modifier) : Q :=
  match transform m with
  | rotateZ c => c * 180
  | translate _ _ _ => 0
  end.

Definition with_lines (n : Z) : Options :=
  {| lines := n; lineWidth := lineWidth DEFAULT_OPTIONS;
     lineHeight := lineHeight DEFAULT_OPTIONS;
     centerOffset := centerOffset DEFAULT_OPTIONS;
     borderRadius := borderRadius DEFAULT_OPTIONS;
     backgroundColor := backgroundColor DEFAULT_OPTIONS;
     spinSpeed := spinSpeed DEFAULT_OPTIONS;
     fadeDuration := fadeDuration DEFAULT_OPTIONS;
     fadeCurve := fadeCurve DEFAULT_OPTIONS |}.

Local Close Scope Q_scope.

End SpinnerB.

(* ===================================================================== *)
(** * Rotations of lists                                                  *)
(* ===================================================================== *)
Section rotate_facts.
Context {A : Type}.
Implicit Types l : list A.

Lemma rotate_1_cons (x : A) l : rotate 1 (x :: l) = l ++ [x].
Proof.
  unfold rotate. destruct l as [|y l]; [reflexivity|].
  replace (1 `mod` length (x :: y :: l)) with 1; [reflexivity|].
  symmetry. apply Nat.mod_small. simpl. lia.
Qed.

Lemma rotate_0 l : rotate 0 l = l.
Proof.
  unfold rotate. rewrite Nat.Div0.mod_0_l. simpl. by rewrite app_nil_r.
Qed.

Lemma rotate_nat_add_assoc a b i len :
  0 < len →
  rotate_nat_add b (rotate_nat_add a i len) len = rotate_nat_add (a + b) i len.
Proof.
  intros Hlen. unfold rotate_nat_add.
  rewrite Z2Nat.id by (apply Z.mod_pos; lia).
  rewrite Zplus_mod_idemp_r. do 2 f_equal. lia.
Qed.

Lemma rotate_rotate a b l : rotate a (rotate b l) = rotate (a + b) l.
Proof.
  apply list_eq. intros i.
  destruct (decide (i < length l)) as [Hi|Hi].
  - assert (0 < length l) by lia.
    rewrite lookup_rotate_r by (by rewrite length_rotate).
    rewrite length_rotate.
    rewrite lookup_rotate_r by (by apply rotate_nat_add_lt).
    rewrite lookup_rotate_r by done.
    by rewrite rotate_nat_add_assoc.
  - rewrite !lookup_ge_None_2; [done| |]; rewrite !length_rotate; lia.
Qed.

Lemma rotate_Permutation n l : rotate n l ≡ₚ l.
Proof.
  unfold rotate. rewrite Permutation_app_comm. by rewrite take_drop.
Qed.

Lemma NoDup_rotate n l : NoDup l → NoDup (rotate n l).
Proof. intros H. by rewrite rotate_Permutation. Qed.

Lemma rotate_nil n : rotate n (@nil A) = [].
Proof. unfold rotate. by rewrite drop_nil, take_nil. Qed.

Lemma rotate_multiple n l : n `mod` length l = 0 → rotate n l = l.
Proof. unfold rotate. intros ->. simpl. by rewrite app_nil_r. Qed.

(** A rotation is undone by rotating the rest of the way round. *)
Lemma rotate_inj n l1 l2 : rotate n l1 = rotate n l2 → l1 = l2.
Proof.
  intros H.
  assert (length l1 = length l2) as Hlen
    by (by rewrite <- (length_rotate l1 n), H, length_rotate).
  remember (length l1) as len eqn:Hl1.
  assert (∀ l, length l = len →
            rotate (len - n `mod` len) (rotate n l) = l) as Hback.
  { intros l Hl.
    destruct (decide (len = 0)) as [Hz|Hne].
    { rewrite Hz in Hl. apply nil_length_inv in Hl as ->.
      by rewrite !rotate_nil. }
    rewrite rotate_rotate. apply rotate_multiple. rewrite Hl.
    pose proof (Nat.mod_upper_bound n len Hne).
    rewrite (Nat.div_mod_eq n len) at 2.
    replace (len - n `mod` len + (len * n `div` len + n `mod` len))
      with ((1 + n `div` len) * len) by lia.
    apply Nat.Div0.mod_mul. }
  rewrite <- (Hback l1), <- (Hback l2), H by done. done.
Qed.
End rotate_facts.

Lemma lookup_rotate_seq k n i :
  i < n → rotate k (seq 0 n) !! i = Some (rotate_nat_add k i n).
Proof.
  intros Hi. rewrite lookup_rotate_r by (by rewrite length_seq).
  rewrite length_seq. apply lookup_seq. split; [done|].
  apply rotate_nat_add_lt. lia.
Qed.

(* ===================================================================== *)
(** * Evenly spaced angles                                                *)
(* ===================================================================== *)
Section ring_angles.
Local Open Scope Q_scope.
Variables (a : Q) (n : Z).
Hypothesis a_pos : 0 < a.
Hypothesis n_pos : (0 < n)%Z.

Lemma inject_Z_pos : 0 < inject_Z n.
Proof using n_pos. change 0 with (inject_Z 0). by rewrite <- Zlt_Qlt. Qed.

Lemma angle_step_pos : 0 < a / inject_Z n.
Proof using a_pos n_pos.
  apply Qlt_shift_div_l; [apply inject_Z_pos|]. by rewrite Qmult_0_l.
Qed.

Lemma angle_inj (i j : nat) :
  a / inject_Z n * inject_Z (Z.of_nat i) ==
  a / inject_Z n * inject_Z (Z.of_nat j) → i = j.
Proof using a_pos n_pos.
  intros H. apply Qmult_inj_l in H.
  - apply Nat2Z.inj. by apply inject_Z_injective.
  - intros Hz. pose proof angle_step_pos as Hp. rewrite Hz in Hp.
    by apply Qlt_irrefl in Hp.
Qed.

Lemma angle_nonneg (i : nat) : 0 <= a / inject_Z n * inject_Z (Z.of_nat i).
Proof using a_pos n_pos.
  apply Qmult_le_0_compat; [apply Qlt_le_weak, angle_step_pos|].
  change 0 with (inject_Z 0). rewrite <- Zle_Qle. lia.
Qed.

Lemma angle_below_turn (i : nat) :
  (Z.of_nat i < n)%Z → a / inject_Z n * inject_Z (Z.of_nat i) < a.
Proof using a_pos n_pos.
  intros Hi. rewrite Zlt_Qlt in Hi.
  apply (Qmult_lt_l _ _ (a / inject_Z n) angle_step_pos) in Hi.
  eapply Qlt_le_trans; [exact Hi|].
  rewrite Qmult_comm. unfold Qdiv. rewrite Qmult_comm, <- Qmult_assoc.
  rewrite (Qmult_comm (/ inject_Z n)), Qmult_inv_r, Qmult_1_r.
  - apply Qle_refl.
  - intros Hz. pose proof inject_Z_pos as Hp. rewrite Hz in Hp.
    by apply Qlt_irrefl in Hp.
Qed.
End ring_angles.

(* ===================================================================== *)
(** * Facts about the RenderController-based widget                       *)
(* ===================================================================== *)
Module TickRing.
Import SpinnerA.

(** The opacity modifier the constructor allocates for index [i]. *)
Definition tick_modifier (o : Options) (i : nat) : StateModifier :=
  {| transform :=
       translate_polar
         (circleRadius o (Math_round (snd (size o) * 0.3)))
         (angleIncrement o * inject_Z (Z.of_nat i));
     opacity := tick_opacity (ticks o) i |}.

Lemma fold_add_tick tw th ai cr l s :
  let s' := fold_left (add_tick tw th ai cr) l s in
  options s' = options s ∧ spinnerState s' = spinnerState s ∧
  shown s' = shown s ∧ timeouts s' = timeouts s ∧
  modifiers s' = modifiers s ++
    ((λ i, {| transform := translate_polar cr (ai * inject_Z (Z.of_nat i));
              opacity := tick_opacity (ticks (options s)) i |}) <$> l) ∧
  tickOpacityModifiers s' =
    tickOpacityModifiers s ++ seq (length (modifiers s)) (length l) ∧
  chain_opacityModifier <$> renderNode s' =
    (chain_opacityModifier <$> renderNode s) ++
    seq (length (modifiers s)) (length l).
Proof.
  revert s. induction l as [|i l IH]; intros s; simpl.
  - by rewrite !app_nil_r.
  - destruct (IH (add_tick tw th ai cr s i)) as (-> & -> & -> & -> & -> & -> & ->).
    simpl. rewrite fmap_app, length_app. simpl.
    rewrite <- !app_assoc. simpl.
    by replace (length (modifiers s) + 1) with (S (length (modifiers s))) by lia.
Qed.

Definition tick_count (o : Options) : nat := Z.to_nat (ticks o).

Ltac new_spec :=
  unfold new; cbv zeta;
  match goal with
  | |- context [fold_left (add_tick ?tw ?th ?ai ?cr) ?l ?s] =>
      destruct (fold_add_tick tw th ai cr l s) as (?&?&?&?&?&?&?)
  end.

Lemma new_options u : options (new u) = resolve u.
Proof. by new_spec. Qed.

Lemma new_modifiers u :
  modifiers (new u) = tick_modifier (resolve u) <$> seq 0 (tick_count (resolve u)).
Proof. by new_spec. Qed.

Lemma new_tickOpacityModifiers u :
  tickOpacityModifiers (new u) = seq 0 (tick_count (resolve u)).
Proof.
  new_spec. etrans; [eassumption|]. simpl. by rewrite length_seq.
Qed.

Lemma new_renderNode u :
  chain_opacityModifier <$> renderNode (new u) = seq 0 (tick_count (resolve u)).
Proof.
  new_spec. etrans; [eassumption|]. simpl. by rewrite length_seq.
Qed.

Lemma new_spinnerState u : spinnerState (new u) = OFF.
Proof. by new_spec. Qed.

Lemma new_timeouts u : timeouts (new u) = 0.
Proof. by new_spec. Qed.

(** The initial gradient. *)
Definition gradient (o : Options) : list Q :=
  tick_opacity (ticks o) <$> seq 0 (tick_count o).

Lemma new_opacities u : opacities (new u) = gradient (resolve u).
Proof.
  unfold opacities, gradient. rewrite new_modifiers, <- list_fmap_compose.
  by apply list_fmap_ext.
Qed.

(** ** The reassignment loop *)

Lemma length_reassign n l : ∀ i h, length (reassign n i l h) = length h.
Proof.
  induction l as [|r l IH]; intros i h; simpl; [done|].
  by rewrite IH, length_alter.
Qed.

Lemma reassign_transform n l :
  ∀ i h, transform <$> reassign n i l h = transform <$> h.
Proof.
  induction l as [|r l IH]; intros i h; simpl; [done|].
  rewrite IH. apply list_eq. intros j. rewrite !list_lookup_fmap.
  destruct (decide (r = j)) as [->|Hne].
  - rewrite list_lookup_alter_eq. by destruct (h !! j).
  - by rewrite list_lookup_alter_ne.
Qed.

Lemma reassign_lookup_notin n l :
  ∀ i h r, r ∉ l → reassign n i l h !! r = h !! r.
Proof.
  induction l as [|r' l IH]; intros i h r Hr; simpl; [done|].
  apply not_elem_of_cons in Hr as [Hne Hr].
  rewrite IH by done. by rewrite list_lookup_alter_ne.
Qed.

Lemma reassign_lookup n l :
  ∀ i h k r, NoDup l → l !! k = Some r → r < length h →
    opacity <$> reassign n i l h !! r = Some (tick_opacity n (i + k)).
Proof.
  induction l as [|r' l IH]; intros i h k r Hnd Hk Hr; [done|].
  apply list.NoDup_cons in Hnd as [Hnotin Hnd]. simpl.
  destruct k as [|k]; simpl in Hk.
  - injection Hk as ->. rewrite reassign_lookup_notin by done.
    rewrite list_lookup_alter_eq.
    destruct (lookup_lt_is_Some_2 h r Hr) as [m ->]. simpl.
    by rewrite Nat.add_0_r.
  - rewrite (IH (S i) _ k r) by (by rewrite ?length_alter).
    do 2 f_equal. lia.
Qed.

(** ** States reached by the widget *)

(** [at_phase u k s]: [s] is a state of the widget built from [u] in which
    the array has been rotated [k] times. *)
Record at_phase (u : option UserOptions) (k : nat) (s : Spinner) : Prop := {
  phase_options : options s = resolve u;
  phase_list :
    tickOpacityModifiers s = rotate k (seq 0 (tick_count (resolve u)));
  phase_length : length (modifiers s) = tick_count (resolve u);
  phase_transform : transform <$> modifiers s = transform <$> modifiers (new u);
  phase_renderNode : renderNode s = renderNode (new u);
  phase_opacity : ∀ i r,
    tickOpacityModifiers s !! i = Some r →
    opacity <$> modifiers s !! r = Some (tick_opacity (ticks (resolve u)) i)
}.

Lemma at_phase_new u : at_phase u 0 (new u).
Proof.
  split; try done.
  - apply new_options.
  - by rewrite rotate_0, new_tickOpacityModifiers.
  - by rewrite new_modifiers, length_fmap, length_seq.
  - intros i r. rewrite new_tickOpacityModifiers, new_modifiers.
    intros [-> Hi]%lookup_seq. simpl.
    rewrite list_lookup_fmap, lookup_seq_lt by done. done.
Qed.

(** Only the array and the store matter for the phase. *)
Lemma at_phase_frame u k s s' :
  at_phase u k s → options s' = options s →
  tickOpacityModifiers s' = tickOpacityModifiers s →
  modifiers s' = modifiers s → renderNode s' = renderNode s →
  at_phase u k s'.
Proof.
  intros [] Ho Hl Hm Hr. split; rewrite ?Ho, ?Hl, ?Hm, ?Hr; done.
Qed.

Lemma at_phase_start u k s : at_phase u k s → at_phase u k (start s).
Proof. intros H. by eapply at_phase_frame. Qed.

Lemma at_phase_stop u k s : at_phase u k s → at_phase u k (stop s).
Proof. intros H. by eapply at_phase_frame. Qed.

Lemma at_phase_elem u k s r :
  at_phase u k s → r ∈ tickOpacityModifiers s → r < length (modifiers s).
Proof.
  intros [] Hr. rewrite phase_list0, elem_of_rotate, elem_of_seq in Hr. lia.
Qed.

Lemma incrementSpinner_list s s' :
  incrementSpinner s = Ok s' →
  tickOpacityModifiers s' = rotate 1 (tickOpacityModifiers s) ∧
  modifiers s' =
    reassign (ticks (options s)) 0 (tickOpacityModifiers s') (modifiers s) ∧
  options s' = options s ∧ renderNode s' = renderNode s ∧
  spinnerState s' = spinnerState s ∧ shown s' = shown s ∧
  timeouts s' = (if (spinnerState s =? ON)%Z then S (timeouts s) else timeouts s).
Proof.
  unfold incrementSpinner. destruct (tickOpacityModifiers s) as [|m rest] eqn:E.
  - done.
  - intros [= <-]. simpl. by rewrite rotate_1_cons.
Qed.

Lemma incrementSpinner_Ok s :
  tickOpacityModifiers s ≠ [] → ∃ s', incrementSpinner s = Ok s'.
Proof.
  unfold incrementSpinner. destruct (tickOpacityModifiers s); [done|eauto].
Qed.

Lemma at_phase_incrementSpinner u k s s' :
  at_phase u k s → incrementSpinner s = Ok s' → at_phase u (S k) s'.
Proof.
  intros Hs (Hl & Hm & Ho & Hr & _)%incrementSpinner_list.
  pose proof Hs as [].
  assert (NoDup (tickOpacityModifiers s')) as Hnd.
  { rewrite Hl. apply NoDup_rotate. rewrite phase_list0.
    apply NoDup_rotate, NoDup_seq. }
  split.
  - by rewrite Ho.
  - by rewrite Hl, phase_list0, rotate_rotate.
  - by rewrite Hm, length_reassign.
  - by rewrite Hm, reassign_transform.
  - by rewrite Hr.
  - intros i r Hi. rewrite Hm, phase_options0.
    apply (reassign_lookup _ _ 0 _ i r); [done..|].
    eapply at_phase_elem; [done|].
    rewrite <- (elem_of_rotate _ 1), <- Hl. by eapply list_elem_of_lookup_2.
Qed.

(** Rotating the displayed opacities back by the phase gives the gradient
    of the constructor. *)
Lemma at_phase_opacities u k s :
  at_phase u k s → rotate k (opacities s) = gradient (resolve u).
Proof.
  intros []. set (n := tick_count (resolve u)) in *.
  assert (length (opacities s) = n) as Hlen
    by (unfold opacities; by rewrite length_fmap).
  apply list_eq. intros i. unfold gradient. fold n.
  destruct (decide (i < n)) as [Hi|Hi].
  - rewrite lookup_rotate_r by lia. rewrite Hlen.
    rewrite list_lookup_fmap, lookup_seq_lt by done. simpl.
    unfold opacities. rewrite list_lookup_fmap.
    apply phase_opacity0 with (i := i).
    rewrite phase_list0. by apply lookup_rotate_seq.
  - rewrite !lookup_ge_None_2; [done| |].
    + rewrite length_fmap, length_seq. lia.
    + rewrite length_rotate. lia.
Qed.

Lemma run_app es1 es2 s : run (es1 ++ es2) s = bind (run es1 s) (run es2).
Proof.
  revert s. induction es1 as [|e es1 IH]; intros s; simpl; [done|].
  destruct (step e s); simpl; [apply IH|done].
Qed.

Lemma at_phase_step u k e s s' :
  at_phase u k s → step e s = Ok s' →
  at_phase u k s' ∨ at_phase u (S k) s'.
Proof.
  intros Hs. destruct e; simpl.
  - intros [= <-]. left. by apply at_phase_start.
  - intros [= <-]. left. by apply at_phase_stop.
  - unfold fire. destruct (timeouts s) as [|n] eqn:E.
    + intros [= <-]. by left.
    + intros Hi. right. eapply at_phase_incrementSpinner; [|done].
      by eapply at_phase_frame.
Qed.

(** Every state the widget reaches is at some phase. *)
Lemma run_at_phase u es : ∀ k s s',
  at_phase u k s → run es s = Ok s' → ∃ k', at_phase u k' s'.
Proof.
  induction es as [|e es IH]; intros k s s' Hs; simpl.
  - intros [= <-]. eauto.
  - destruct (step e s) as [s1|] eqn:E; [|done]. simpl.
    destruct (at_phase_step _ _ _ _ _ Hs E); eauto.
Qed.

Lemma reachable_at_phase u es s :
  run es (new u) = Ok s → ∃ k, at_phase u k s.
Proof. eapply run_at_phase, at_phase_new. Qed.

Lemma at_phase_nonempty u k s :
  (0 < ticks (resolve u))%Z → at_phase u k s → tickOpacityModifiers s ≠ [].
Proof.
  intros Hn [] Hnil.
  assert (length (tickOpacityModifiers s) = tick_count (resolve u)) as Hlen
    by (by rewrite phase_list0, length_rotate, length_seq).
  rewrite Hnil in Hlen. unfold tick_count in Hlen. simpl in Hlen. lia.
Qed.

(** With at least one tick no event ever raises. *)
Lemma run_total u es : ∀ k s,
  (0 < ticks (resolve u))%Z → at_phase u k s → ∃ s', run es s = Ok s'.
Proof.
  induction es as [|e es IH]; intros k s Hn Hs; simpl; [eauto|].
  assert (∃ s1, step e s = Ok s1) as [s1 E].
  { destruct e; simpl; eauto. unfold fire. destruct (timeouts s); [eauto|].
    apply incrementSpinner_Ok. simpl. by eapply at_phase_nonempty. }
  rewrite E. simpl.
  destruct (at_phase_step _ _ _ _ _ Hs E); eauto.
Qed.

(** While the widget is ON with one timeout pending, each firing advances
    the phase by one and leaves one timeout pending. *)
Lemma run_timeouts u t : ∀ k s s',
  at_phase u k s → spinnerState s = ON → timeouts s = 1 →
  run (repeat Timeout t) s = Ok s' →
  at_phase u (t + k) s' ∧ spinnerState s' = ON ∧ timeouts s' = 1.
Proof.
  induction t as [|t IH]; intros k s s' Hs Hon Hto; simpl.
  - by intros [= <-].
  - unfold fire. rewrite Hto.
    match goal with |- context [incrementSpinner ?x] => set (s1 := x) end.
    destruct (incrementSpinner s1) as [s2|] eqn:E; [|done]. simpl.
    intros Hrun.
    assert (at_phase u k s1) as Hs1 by (by eapply at_phase_frame).
    pose proof (at_phase_incrementSpinner _ _ _ _ Hs1 E) as Hs2.
    apply incrementSpinner_list in E as (_&_&_&_&Hst&_&Hto2).
    simpl in Hst, Hto2. rewrite Hon in Hto2. simpl in Hto2.
    destruct (IH (S k) s2 s' Hs2) as (H1 & H2 & H3); [congruence|done|done|].
    split_and!; [|done..].
    by replace (S (t + k)) with (t + S k) by lia.
Qed.

(** The state after [start()] and [t] firings of the timer. *)
Lemma run_ticks u t :
  (0 < ticks (resolve u))%Z →
  ∃ s, run (Start :: repeat Timeout t) (new u) = Ok s ∧ at_phase u t s ∧
       spinnerState s = ON ∧ timeouts s = 1.
Proof.
  intros Hn. induction t as [|t (s & Hrun & Hs & Hon & Hto)].
  - exists (start (new u)). simpl. rewrite new_timeouts.
    split_and!; try done. apply at_phase_start, at_phase_new.
  - replace (Start :: repeat Timeout (S t))
      with ((Start :: repeat Timeout t) ++ [Timeout])
      by (simpl; by rewrite <- repeat_cons).
    rewrite run_app, Hrun. simpl. unfold fire. rewrite Hto.
    match goal with |- context [incrementSpinner ?x] => set (s1 := x) end.
    assert (at_phase u t s1) as Hs1 by (by eapply at_phase_frame).
    destruct (incrementSpinner_Ok s1) as [s' E].
    { by eapply at_phase_nonempty. }
    rewrite E. exists s'. simpl. split_and!; [done|..].
    + by eapply at_phase_incrementSpinner.
    + apply incrementSpinner_list in E as (_&_&_&_&->&_). done.
    + apply incrementSpinner_list in E as (_&_&_&_&_&_&->).
      simpl. by rewrite Hon.
Qed.

End TickRing.

(* ===================================================================== *)
(** * Loops that update an array index by index                           *)
(* ===================================================================== *)
Section index_loops.
Context {A : Type}.
Implicit Types (l : list A) (f : nat → A → A).

Lemma lookup_fold_alter_seq f n : ∀ l i,
  fold_left (λ l i, alter (f i) i l) (seq 0 n) l !! i =
  if decide (i < n) then f i <$> l !! i else l !! i.
Proof.
  induction n as [|n IH]; intros l i.
  - simpl. destruct (decide (i < 0)); [lia|done].
  - rewrite seq_S, fold_left_app. simpl.
    destruct (decide (n = i)) as [->|Hne].
    + rewrite list_lookup_alter_eq, IH.
      case_decide; [lia|]. case_decide; [done|lia].
    + rewrite list_lookup_alter_ne, IH by done.
      repeat case_decide; done || lia.
Qed.

Lemma length_fold_alter_seq f n l :
  length (fold_left (λ l i, alter (f i) i l) (seq 0 n) l) = length l.
Proof.
  induction n as [|n IH]; [done|].
  rewrite seq_S, fold_left_app. simpl. by rewrite length_alter.
Qed.

(** When the loop covers the array it is an indexed map. *)
Lemma fold_alter_seq_imap f l :
  fold_left (λ l i, alter (f i) i l) (seq 0 (length l)) l = imap f l.
Proof.
  apply list_eq. intros i. rewrite lookup_fold_alter_seq, list_lookup_imap.
  case_decide as Hi; [done|].
  rewrite lookup_ge_None_2 by lia. done.
Qed.

Lemma filter_all_true (P : A → Prop) `{!∀ x, Decision (P x)} l :
  Forall P l → filter P l = l.
Proof.
  induction 1 as [|x l Hx Hl IH]; [done|].
  by rewrite filter_cons_True, IH.
Qed.

Lemma filter_filter_same (P : A → Prop) `{!∀ x, Decision (P x)} l :
  filter P (filter P l) = filter P l.
Proof.
  apply filter_all_true, list.Forall_forall.
  by intros x [? _]%list_elem_of_filter.
Qed.

Lemma fmap_fixed (g : A → A) l : Forall (λ x, g x = x) l → g <$> l = l.
Proof. induction 1 as [|x l Hx Hl IH]; [done|]. by rewrite fmap_cons, Hx, IH. Qed.
End index_loops.

(* ===================================================================== *)
(** * Facts about the View-based widget                                   *)
(* ===================================================================== *)
Module LineRing.
Import SpinnerB.

Definition line_count (o : Options) : nat := Z.to_nat (lines o).

(** The gradient the falloff formula gives at phase [t]. *)
Definition gradient_at (n : nat) (t : Z) : list Q :=
  (λ i, _spinLineOpacity (Z.of_nat i) t (Z.of_nat n)) <$> seq 0 n.

Definition spinLine_modifier (o : Options) (i : nat) : Modifier :=
  {| transform := translate (centerOffset o) 0 0;
     opacity := _spinLineOpacity (Z.of_nat i) 0 (lines o);
     queue := [] |}.

Definition rotate_modifier (o : Options) (i : nat) : Modifier :=
  {| transform := rotateZ (rotationOffset (lines o) * inject_Z (Z.of_nat i));
     opacity := 1; queue := [] |}.

Lemma fold_add_line c ro l s :
  let s' := fold_left (add_line c ro) l s in
  options s' = options s ∧ spinInterval s' = spinInterval s ∧
  intervals s' = intervals s ∧ stop_timeouts s' = stop_timeouts s ∧
  next_handle s' = next_handle s ∧ calls s' = calls s ∧
  spinLineModifiers s' = spinLineModifiers s ++
    ((λ i, {| transform := translate (centerOffset (options s)) 0 0;
              opacity := _spinLineOpacity (Z.of_nat i) 0 c;
              queue := [] |}) <$> l) ∧
  rotateModifiers s' = rotateModifiers s ++
    ((λ i, {| transform := rotateZ (ro * inject_Z (Z.of_nat i));
              opacity := 1; queue := [] |}) <$> l) ∧
  chain_rotateModifier <$> renderTree s' =
    (chain_rotateModifier <$> renderTree s) ++
    seq (length (rotateModifiers s)) (length l) ∧
  chain_spinLineModifier <$> renderTree s' =
    (chain_spinLineModifier <$> renderTree s) ++
    seq (length (spinLineModifiers s)) (length l).
Proof.
  revert s. induction l as [|i l IH]; intros s; simpl.
  - by rewrite !app_nil_r.
  - destruct (IH (add_line c ro s i))
      as (-> & -> & -> & -> & -> & -> & -> & -> & -> & ->).
    simpl. rewrite !fmap_app, !length_app. simpl.
    rewrite <- !app_assoc. simpl.
    replace (length (rotateModifiers s) + 1)
      with (S (length (rotateModifiers s))) by lia.
    by replace (length (spinLineModifiers s) + 1)
      with (S (length (spinLineModifiers s))) by lia.
Qed.

Ltac new_spec :=
  unfold new, _createSpinLineSurfaces; cbv zeta;
  match goal with
  | |- context [fold_left (add_line ?c ?ro) ?l ?s] =>
      destruct (fold_add_line c ro l s) as (?&?&?&?&?&?&?&?&?&?)
  end.

Lemma new_line_options o : options (new o) = o.
Proof. by new_spec. Qed.

Lemma new_spinLineModifiers o :
  spinLineModifiers (new o) = spinLine_modifier o <$> seq 0 (line_count o).
Proof. by new_spec. Qed.

Lemma new_rotateModifiers o :
  rotateModifiers (new o) = rotate_modifier o <$> seq 0 (line_count o).
Proof. by new_spec. Qed.

Lemma new_renderTree o :
  chain_rotateModifier <$> renderTree (new o) = seq 0 (line_count o) ∧
  chain_spinLineModifier <$> renderTree (new o) = seq 0 (line_count o).
Proof.
  new_spec. split; (etrans; [eassumption|]); simpl; by rewrite length_seq.
Qed.

Lemma new_timers o :
  spinInterval (new o) = None ∧ intervals (new o) = [] ∧
  stop_timeouts (new o) = [] ∧ next_handle (new o) = 0 ∧ calls (new o) = [].
Proof. by new_spec. Qed.

Lemma new_line_opacities o : opacities (new o) = gradient_at (line_count o) 0.
Proof.
  unfold opacities, gradient_at.
  rewrite new_spinLineModifiers, <- list_fmap_compose.
  destruct (decide (0 ≤ lines o)%Z) as [Hn|Hn].
  - apply list_fmap_ext. intros _ i _. simpl.
    unfold line_count. by rewrite Z2Nat.id.
  - unfold line_count. replace (Z.to_nat (lines o)) with 0 by lia. done.
Qed.

Lemma new_visibilities o :
  visibilities (new o) = replicate (line_count o) 1%Q.
Proof.
  unfold visibilities. rewrite new_rotateModifiers, <- list_fmap_compose.
  generalize 0. induction (line_count o) as [|n IH]; intros k; simpl; [done|].
  by rewrite IH.
Qed.

(** ** The falloff formula under a change of phase *)

Lemma spinLineOpacity_rem i t i' t' c :
  Z.rem (c - i + t) c = Z.rem (c - i' + t') c →
  _spinLineOpacity i t c = _spinLineOpacity i' t' c.
Proof. unfold _spinLineOpacity. by intros ->. Qed.

(** Raising the phase by [k] moves the gradient [k] places around the
    ring: rotating it back gives the gradient at phase [0]. *)
Lemma rotate_gradient_at n k :
  rotate k (gradient_at n (Z.of_nat k)) = gradient_at n 0.
Proof.
  assert (length (gradient_at n (Z.of_nat k)) = n) as Hlen
    by (unfold gradient_at; by rewrite length_fmap, length_seq).
  apply list_eq. intros i.
  destruct (decide (i < n)) as [Hi|Hi].
  - rewrite lookup_rotate_r by lia. rewrite Hlen.
    pose proof (rotate_nat_add_lt k i n ltac:(lia)) as Hlt.
    unfold gradient_at. rewrite !list_lookup_fmap, !lookup_seq_lt by done.
    simpl. f_equal. apply spinLineOpacity_rem.
    unfold rotate_nat_add. rewrite Z2Nat.id by (apply Z.mod_pos; lia).
    rewrite !Z.rem_mod_nonneg.
    + replace (Z.of_nat n - (Z.of_nat k + Z.of_nat i) `mod` Z.of_nat n
               + Z.of_nat k)%Z
        with (Z.of_nat n + Z.of_nat k
              - (Z.of_nat k + Z.of_nat i) `mod` Z.of_nat n)%Z by lia.
      rewrite Zminus_mod_idemp_r. f_equal. lia.
    + lia.
    + lia.
    + pose proof (Z.mod_pos_bound (Z.of_nat k + Z.of_nat i) (Z.of_nat n)). lia.
    + lia.
  - rewrite !lookup_ge_None_2; [done| |].
    + unfold gradient_at. rewrite length_fmap, length_seq. lia.
    + rewrite length_rotate. lia.
Qed.

(** ** The loop of the interval callback *)

Lemma set_line_opacities_imap t l :
  set_line_opacities t (length l) l =
  imap (λ i, setOpacity (_spinLineOpacity (Z.of_nat i) t (Z.of_nat (length l)))
               None None) l.
Proof. unfold set_line_opacities. by rewrite fold_alter_seq_imap. Qed.

Lemma length_set_line_opacities t n l :
  length (set_line_opacities t n l) = length l.
Proof. apply length_fold_alter_seq. Qed.

Lemma set_line_opacities_opacity t l :
  opacity <$> set_line_opacities t (length l) l = gradient_at (length l) t.
Proof.
  rewrite set_line_opacities_imap. apply list_eq. intros i.
  unfold gradient_at. rewrite !list_lookup_fmap, list_lookup_imap.
  destruct (decide (i < length l)) as [Hi|Hi].
  - rewrite lookup_seq_lt by done.
    destruct (lookup_lt_is_Some_2 l i Hi) as [m ->]. done.
  - rewrite lookup_ge_None_2 by lia. simpl.
    rewrite lookup_ge_None_2; [done|]. rewrite length_seq. lia.
Qed.

Lemma set_line_opacities_transform t l :
  transform <$> set_line_opacities t (length l) l = transform <$> l.
Proof.
  rewrite set_line_opacities_imap. apply list_eq. intros i.
  rewrite !list_lookup_fmap, list_lookup_imap. by destruct (l !! i).
Qed.

(** ** [stop] *)

Definition cleared (s : Spinner) : list Interval :=
  match spinInterval s with
  | Some h => filter (λ iv, handle iv ≠ h) (intervals s)
  | None => intervals s
  end.

Definition logged (cb : value) : list nat :=
  match cb with
  | function f => [f]
  | _ => []
  end.

Lemma stop_spec cb s s' :
  stop cb s = Ok s' →
  options s' = options s ∧ spinLineModifiers s' = spinLineModifiers s ∧
  rotateModifiers s' = rotateModifiers s ∧ renderTree s' = renderTree s ∧
  spinInterval s' = spinInterval s ∧ intervals s' = cleared s ∧
  stop_timeouts s' = stop_timeouts s ∧ next_handle s' = next_handle s ∧
  calls s' = calls s ++ logged cb.
Proof.
  unfold stop, cleared, call.
  destruct (spinInterval s) as [h|] eqn:E;
    destruct cb as [|q|f]; simpl; try destruct (Qeq_bool q 0); simpl;
    try done; intros [= <-]; simpl; by rewrite ?app_nil_r, ?E.
Qed.

(** [stop] raises only when handed a number other than [0] to call. *)
Lemma stop_Ok cb s :
  (∀ q, cb = number q → Qeq_bool q 0 = true) → ∃ s', stop cb s = Ok s'.
Proof.
  intros Hcb. unfold stop, call. destruct cb as [|q|f]; simpl; eauto.
  rewrite (Hcb q) by done. simpl. eauto.
Qed.

(** ** States reached by the widget *)

Record wf (o : Options) (s : Spinner) : Prop := {
  wf_options : options s = o;
  wf_spinLine : length (spinLineModifiers s) = line_count o;
  wf_rotate : length (rotateModifiers s) = line_count o;
  wf_phase :
    ∃ k : nat, opacities s = gradient_at (line_count o) (Z.of_nat k);
  wf_intervals :
    Forall (λ iv, count iv = line_count o ∧ (0 ≤ t iv)%Z ∧
                  handle iv < next_handle s) (intervals s)
}.

Lemma wf_new o : wf o (new o).
Proof.
  split.
  - apply new_line_options.
  - by rewrite new_spinLineModifiers, length_fmap, length_seq.
  - by rewrite new_rotateModifiers, length_fmap, length_seq.
  - exists 0. apply new_line_opacities.
  - destruct (new_timers o) as (_ & -> & _). constructor.
Qed.

Lemma wf_start o s : wf o s → wf o (start s).
Proof.
  intros []. split; simpl; try done.
  apply Forall_app. split.
  - eapply Forall_impl; [done|]. simpl. intros iv (? & ? & ?).
    split_and!; [done..|lia].
  - repeat constructor; simpl; done || lia.
Qed.

Lemma wf_stop o cb s s' : wf o s → stop cb s = Ok s' → wf o s'.
Proof.
  intros [] (Ho & Hl & Hr & _ & _ & Hi & _ & Hn & _)%stop_spec.
  split; unfold opacities in *; rewrite ?Ho, ?Hl, ?Hr, ?Hi, ?Hn; try done.
  unfold cleared. destruct (spinInterval s); [|done].
  rewrite list.Forall_forall in *. intros iv [_ Hiv]%list_elem_of_filter. auto.
Qed.

Lemma wf_fade o args s : wf o s → wf o (fade args s).
Proof.
  intros []. unfold fade.
  destruct (if (length args =? 1) then _ else _) as [d cb].
  split; simpl; try done.
  by rewrite length_fold_alter_seq.
Qed.

Lemma wf_reset o cb s s' : wf o s → reset cb s = Ok s' → wf o s'.
Proof.
  intros Hs. pose proof Hs as []. unfold reset.
  case_decide; [|done]. apply wf_stop.
  split; simpl; try done.
  - by rewrite length_set_line_opacities.
  - by rewrite length_fold_alter_seq.
  - exists 0. unfold opacities. simpl.
    by rewrite set_line_opacities_opacity, wf_spinLine0.
Qed.

Lemma wf_interval_callback o iv s s' :
  wf o s → iv ∈ intervals s → interval_callback iv s = Ok s' → wf o s'.
Proof.
  intros [] Hiv. unfold interval_callback. case_decide; [|done].
  intros [= <-].
  rewrite Forall_forall in wf_intervals0.
  destruct (wf_intervals0 iv Hiv) as (Hc & Ht & Hh).
  split; simpl; try done.
  - by rewrite length_set_line_opacities.
  - exists (Z.to_nat (t iv)). unfold opacities. simpl.
    rewrite Hc, <- wf_spinLine0, set_line_opacities_opacity.
    by rewrite Z2Nat.id.
  - apply Forall_fmap, Forall_forall. intros iv' Hiv'. simpl.
    case_decide; simpl; [split_and!; [done|lia|done]|by apply wf_intervals0].
Qed.

Lemma wf_transition_end o i s s' :
  wf o s → transition_end i s = Ok s' → wf o s'.
Proof.
  intros Hs. pose proof Hs as []. unfold transition_end.
  destruct (rotateModifiers s !! i) as [m|]; [|by intros [= <-]].
  destruct (queue m) as [|tr q]; [by intros [= <-]|].
  match goal with |- context [set_rotateModifiers ?l s] =>
    assert (wf o (set_rotateModifiers l s)) as Hs'
      by (split; simpl; try done; by rewrite length_insert)
  end.
  destruct (transition_callback tr) as [cb|].
  - by apply wf_stop.
  - by intros [= <-].
Qed.

Lemma wf_step o e s s' : wf o s → step e s = Ok s' → wf o s'.
Proof.
  intros Hs. destruct e; simpl.
  - intros [= <-]. by apply wf_start.
  - by apply wf_stop.
  - intros [= <-]. pose proof (wf_start _ _ Hs) as [].
    split; simpl; done.
  - intros [= <-]. by apply wf_fade.
  - by apply wf_reset.
  - destruct (list_find _ _) as [[j iv]|] eqn:E; [|by intros [= <-]].
    apply list_find_Some in E as (Hj & _ & _).
    apply wf_interval_callback; [done|]. by eapply list_elem_of_lookup_2.
  - destruct (stop_timeouts s !! k); [|by intros [= <-]].
    apply wf_stop. destruct Hs. split; simpl; done.
  - by apply wf_transition_end.
Qed.

Lemma run_wf o es : ∀ s s', wf o s → run es s = Ok s' → wf o s'.
Proof.
  induction es as [|e es IH]; intros s s' Hs; simpl.
  - by intros [= <-].
  - destruct (step e s) as [s1|] eqn:E; [|done]. simpl.
    apply IH. by eapply wf_step.
Qed.

Lemma reachable_wf o es s : run es (new o) = Ok s → wf o s.
Proof. apply run_wf, wf_new. Qed.

Lemma run_lines_app es1 es2 s : run (es1 ++ es2) s = bind (run es1 s) (run es2).
Proof.
  revert s. induction es1 as [|e es1 IH]; intros s; simpl; [done|].
  destruct (step e s); simpl; [apply IH|done].
Qed.

(** One more tick moves the gradient by one place. *)
Lemma rotate_gradient_at_S n k :
  rotate 1 (gradient_at n (Z.of_nat (S k))) = gradient_at n (Z.of_nat k).
Proof.
  apply (rotate_inj k). rewrite rotate_rotate.
  replace (k + 1) with (S k) by lia. by rewrite !rotate_gradient_at.
Qed.

(** The interval callback paints the gradient at the closure's phase and
    then increments the phase. *)
Lemma interval_callback_spec iv s :
  count iv = length (spinLineModifiers s) →
  ∃ s', interval_callback iv s = Ok s' ∧
    opacities s' = gradient_at (count iv) (t iv) ∧
    transform <$> spinLineModifiers s' = transform <$> spinLineModifiers s ∧
    rotateModifiers s' = rotateModifiers s ∧
    intervals s' =
      (λ iv', if decide (handle iv' = handle iv)
              then {| handle := handle iv; count := count iv;
                      t := (t iv + 1)%Z |}
              else iv') <$> intervals s ∧
    spinInterval s' = spinInterval s ∧ calls s' = calls s ∧
    options s' = options s.
Proof.
  intros Hc. unfold interval_callback.
  case_decide; [|lia]. eexists. split; [done|].
  unfold opacities. simpl. rewrite Hc.
  by rewrite set_line_opacities_opacity, set_line_opacities_transform.
Qed.

(** The state after [start()] and [k] firings of its interval: the lines
    show the gradient at phase [k - 1]. *)
Lemma run_line_ticks o k :
  ∃ s, run (Start :: repeat (Tick 0) k) (new o) = Ok s ∧ wf o s ∧
    intervals s = [ {| handle := 0; count := line_count o; t := Z.of_nat k |} ] ∧
    spinInterval s = Some 0 ∧
    opacities s = gradient_at (line_count o) (Z.of_nat (pred k)).
Proof.
  induction k as [|k (s & Hrun & Hs & Hiv & Hsp & Hop)].
  - exists (start (new o)). destruct (new_timers o) as (? & Hi & ? & Hh & ?).
    split_and!; [done|apply wf_start, wf_new|..]; simpl; rewrite ?Hi, ?Hh.
    + f_equal. f_equal. by rewrite new_spinLineModifiers, length_fmap, length_seq.
    + done.
    + apply new_line_opacities.
  - replace (Start :: repeat (Tick 0) (S k))
      with ((Start :: repeat (Tick 0) k) ++ [Tick 0])
      by (simpl; by rewrite <- repeat_cons).
    rewrite run_lines_app, Hrun. simpl. rewrite Hiv. simpl.
    match goal with |- context [interval_callback ?x s] => set (iv := x) end.
    destruct (interval_callback_spec iv s)
      as (s' & E & Hop' & _ & _ & Hiv' & Hsp' & _).
    { simpl. by destruct Hs. }
    rewrite E. simpl. exists s'. split_and!; [done|..].
    + eapply wf_interval_callback; [done| |done]. rewrite Hiv. by left.
    + rewrite Hiv', Hiv. simpl. do 2 f_equal. lia.
    + by rewrite Hsp'.
    + by rewrite Hop'.
Qed.

(** The tick that follows [k] ticks shows the gradient at phase [k]. *)
Lemma tick_after_ticks o k s :
  run (Start :: repeat (Tick 0) k) (new o) = Ok s →
  ∃ s', step (Tick 0) s = Ok s' ∧
        opacities s' = gradient_at (line_count o) (Z.of_nat k) ∧
        opacities s = gradient_at (line_count o) (Z.of_nat (pred k)).
Proof.
  intros Hrun.
  destruct (run_line_ticks o k) as (s0 & Hrun0 & _ & _ & _ & Hop0).
  destruct (run_line_ticks o (S k)) as (s' & Hrun' & _ & _ & _ & Hop').
  assert (s0 = s) as -> by congruence.
  replace (Start :: repeat (Tick 0) (S k))
    with ((Start :: repeat (Tick 0) k) ++ [Tick 0]) in Hrun'
    by (simpl; by rewrite <- repeat_cons).
  rewrite run_lines_app, Hrun in Hrun'. simpl in Hrun'.
  exists s'. split_and!; [|done..].
  match type of Hrun' with
  | bind ?m _ = _ => change (m = Ok s'); destruct m; simpl in Hrun'; congruence
  end.
Qed.

(** ** [fade] *)

(** The transition [fade] queues on [rotateModifiers[i]]. *)
Definition fade_transition (s : Spinner) (d cb : value) (i : nat) : Transition :=
  {| target := 0; duration := d; curve := fadeCurve (options s);
     transition_callback := if (i =? 0)%nat then Some cb else None |}.

Lemma fade_two_arguments d cb s :
  fade [d; cb] s =
  set_rotateModifiers
    (imap (λ i m, {| transform := transform m; opacity := opacity m;
                     queue := queue m ++ [fade_transition s d cb i] |})
       (rotateModifiers s))
    s.
Proof. unfold fade. simpl. by rewrite fold_alter_seq_imap. Qed.

Lemma fade_one_argument x s :
  fade [x] s = fade [number (fadeDuration (options s)); x] s.
Proof. reflexivity. Qed.

Lemma transition_end_single i m tr s :
  rotateModifiers s !! i = Some m → queue m = [tr] →
  transition_end i s =
  let s1 := set_rotateModifiers
              (<[i := {| transform := transform m; opacity := target tr;
                         queue := [] |}]> (rotateModifiers s)) s in
  match transition_callback tr with
  | Some cb => stop cb s1
  | None => Ok s1
  end.
Proof. intros Hm Hq. unfold transition_end. by rewrite Hm, Hq. Qed.

(** Completing, in any order [p] without repetition, transitions that
    [fade] queued with the callback [function f]: each completion sets its
    modifier's opacity to [0], and [f] is invoked when, and only when, the
    completion is that of index [0]. *)
Lemma run_fade_completions (f : nat) p : ∀ s,
  NoDup p →
  (∀ i, i ∈ p → ∃ m tr,
     rotateModifiers s !! i = Some m ∧ queue m = [tr] ∧ target tr = 0%Q ∧
     transition_callback tr = if (i =? 0)%nat then Some (function f) else None) →
  ∃ s', run (TransitionEnd <$> p) s = Ok s' ∧
    calls s' = calls s ++ (if decide (0 ∈ p) then [f] else []) ∧
    spinLineModifiers s' = spinLineModifiers s ∧
    length (rotateModifiers s') = length (rotateModifiers s) ∧
    (∀ i, i ∈ p → opacity <$> rotateModifiers s' !! i = Some 0%Q) ∧
    (∀ i, i ∉ p → rotateModifiers s' !! i = rotateModifiers s !! i).
Proof.
  induction p as [|i p IH]; intros s Hnd Hq.
  - exists s.
    destruct (decide (0 ∈ @nil nat)) as [H0|_]; [by apply not_elem_of_nil in H0|].
    rewrite app_nil_r. split_and!; try done. by intros i ?%not_elem_of_nil.
  - apply list.NoDup_cons in Hnd as [Hi Hnd].
    destruct (Hq i) as (m & tr & Hm & Hqm & Ht & Hcb); [by left|].
    simpl. rewrite (transition_end_single i m tr s Hm Hqm). cbv zeta.
    match goal with |- context [set_rotateModifiers ?l s] =>
      set (s1 := set_rotateModifiers l s) end.
    assert (∃ s2,
              match transition_callback tr with
              | Some cb => stop cb s1
              | None => Ok s1
              end = Ok s2 ∧
              rotateModifiers s2 = rotateModifiers s1 ∧
              spinLineModifiers s2 = spinLineModifiers s1 ∧
              calls s2 = calls s1 ++ (if (i =? 0)%nat then [f] else []))
      as (s2 & -> & Hr2 & Hl2 & Hc2).
    { rewrite Hcb. destruct (i =? 0)%nat.
      - destruct (stop_Ok (function f) s1) as [s2 E]; [done|].
        exists s2. split; [done|].
        by apply stop_spec in E as (_ & ? & ? & _ & _ & _ & _ & _ & ?).
      - exists s1. by rewrite app_nil_r. }
    simpl.
    destruct (IH s2 Hnd) as (s' & Hrun & Hc & Hl & Hlen & Hin & Hout).
    { intros j Hj. rewrite Hr2. simpl.
      rewrite list_lookup_insert_ne by (intros ->; done).
      apply Hq. by right. }
    exists s'. split_and!.
    + done.
    + rewrite Hc, Hc2. simpl. rewrite <- app_assoc. f_equal.
      destruct (Nat.eqb_spec i 0) as [->|Hne].
      * rewrite decide_False by done. rewrite decide_True by (by left). done.
      * simpl. destruct (decide (0 ∈ p)) as [H0|H0].
        -- rewrite decide_True by (by right). done.
        -- rewrite decide_False; [done|].
           intros [?|?]%elem_of_cons; [lia|done].
    + by rewrite Hl, Hl2.
    + rewrite Hlen, Hr2. simpl. by rewrite length_insert.
    + intros j [->|Hj]%elem_of_cons; [|by apply Hin].
      rewrite Hout, Hr2 by done. simpl.
      rewrite list_lookup_insert_eq by (by eapply lookup_lt_Some). simpl.
      by rewrite Ht.
    + intros j [Hne Hj]%not_elem_of_cons.
      rewrite Hout, Hr2 by done. simpl.
      by rewrite list_lookup_insert_ne.
Qed.

(** ** [reset] *)

Lemma reset_spec cb s s' :
  length (rotateModifiers s) = length (spinLineModifiers s) →
  reset cb s = Ok s' →
  opacities s' = gradient_at (length (spinLineModifiers s)) 0 ∧
  visibilities s' = replicate (length (spinLineModifiers s)) 1%Q ∧
  Forall (λ m, queue m = []) (rotateModifiers s') ∧
  spinInterval s' = spinInterval s ∧ intervals s' = cleared s ∧
  calls s' = calls s ++ logged cb.
Proof.
  intros Hlen. unfold reset. case_decide; [|lia].
  intros (_ & Hl & Hr & _ & Hsp & Hi & _ & _ & Hc)%stop_spec.
  simpl in *. unfold opacities, visibilities.
  rewrite Hl, Hr, Hsp, Hi, Hc, set_line_opacities_opacity.
  rewrite <- Hlen, fold_alter_seq_imap.
  split_and!; try done.
  - apply list_eq. intros i. rewrite list_lookup_fmap, list_lookup_imap.
    destruct (rotateModifiers s !! i) as [m|] eqn:E; simpl.
    + symmetry. apply lookup_replicate_2. by eapply lookup_lt_Some.
    + symmetry. apply lookup_replicate_None. by apply lookup_ge_None.
  - apply list.Forall_forall. intros m (i & Hi')%list_elem_of_lookup_1.
    rewrite list_lookup_imap in Hi'.
    destruct (rotateModifiers s !! i); simpl in Hi'; [|done].
    by injection Hi' as <-.
Qed.

Lemma reset_Ok cb s :
  length (rotateModifiers s) = length (spinLineModifiers s) →
  (∀ q, cb = number q → Qeq_bool q 0 = true) →
  ∃ s', reset cb s = Ok s'.
Proof.
  intros Hlen Hcb. unfold reset. case_decide; [|lia]. by apply stop_Ok.
Qed.

(** ** Starting twice *)

Lemma double_start o s :
  wf o s →
  let h := next_handle s in
  let first := {| handle := h; count := line_count o; t := 0 |} in
  let second := {| handle := S h; count := line_count o; t := 0 |} in
  intervals (start (start s)) = intervals s ++ [first; second] ∧
  spinInterval (start (start s)) = Some (S h) ∧
  cleared (start (start s)) = intervals s ++ [first].
Proof.
  intros [] h first second. unfold cleared. simpl.
  rewrite wf_spinLine0, <- app_assoc. simpl. split_and!; [done..|].
  rewrite filter_app, filter_all_true.
  - f_equal. rewrite filter_cons_True by (simpl; lia).
    rewrite filter_cons_False by (simpl; intros ?; done). done.
  - eapply Forall_impl; [done|]. simpl. intros iv (_ & _ & ?). lia.
Qed.

End LineRing.

(* ===================================================================== *)
(** * The falloff formulas                                                *)
(* ===================================================================== *)
Section falloff.
Local Open Scope Q_scope.
Variable n : Z.
Hypothesis n_pos : (0 < n)%Z.

Lemma Qdiv_lt_n (x y : Z) :
  (x < y)%Z → inject_Z x / inject_Z n < inject_Z y / inject_Z n.
Proof using n_pos.
  intros Hxy. unfold Qdiv. apply Qmult_lt_compat_r.
  - apply Qinv_lt_0_compat. by apply inject_Z_pos.
  - by rewrite <- Zlt_Qlt.
Qed.

Lemma Qdiv_n_n : inject_Z n / inject_Z n == 1.
Proof using n_pos.
  unfold Qdiv. apply Qmult_inv_r. intros Hz.
  pose proof (inject_Z_pos n n_pos) as Hp. rewrite Hz in Hp.
  by apply Qlt_irrefl in Hp.
Qed.

Lemma Qdiv_0_n : inject_Z 0 / inject_Z n == 0.
Proof. unfold Qdiv. apply Qmult_0_l. Qed.

(** First widget: [i / n + 0.1] grows with [i]. *)
Lemma tick_opacity_lt (i j : nat) :
  (i < j)%nat → SpinnerA.tick_opacity n i < SpinnerA.tick_opacity n j.
Proof using n_pos.
  intros Hij. unfold SpinnerA.tick_opacity.
  apply Qplus_lt_l, Qdiv_lt_n. lia.
Qed.

(** Second widget at phase [0]: [pos] of line [i]. *)
Definition pos_of (i : Z) : Q :=
  1 - inject_Z ((n - i) `mod` n) / inject_Z n.

Lemma spinLineOpacity_pos (i : Z) :
  (0 ≤ i < n)%Z →
  SpinnerB._spinLineOpacity i 0 n = pos_of i * pos_of i * 0.9 + 0.1.
Proof using n_pos.
  intros Hi. unfold SpinnerB._spinLineOpacity, pos_of.
  by rewrite Z.add_0_r, Z.rem_mod_nonneg by lia.
Qed.

Lemma pos_of_0 : pos_of 0 == 1.
Proof using n_pos.
  unfold pos_of. rewrite Z.sub_0_r, Z_mod_same_full, Qdiv_0_n. lra.
Qed.

Lemma pos_of_inner (i : Z) :
  (1 ≤ i < n)%Z → pos_of i == inject_Z i / inject_Z n.
Proof using n_pos.
  intros Hi. unfold pos_of. rewrite Z.mod_small by lia.
  unfold Zminus. rewrite inject_Z_plus, inject_Z_opp.
  pose proof Qdiv_n_n as H1. unfold Qdiv in *.
  rewrite Qmult_plus_distr_l, H1. lra.
Qed.

Lemma pos_of_range (i : Z) : (0 ≤ i < n)%Z → 0 <= pos_of i ∧ pos_of i <= 1.
Proof using n_pos.
  intros Hi. destruct (decide (i = 0)%Z) as [->|Hne].
  - rewrite pos_of_0. lra.
  - rewrite pos_of_inner by lia.
    pose proof (Qdiv_lt_n 0 i ltac:(lia)) as H0.
    pose proof (Qdiv_lt_n i n ltac:(lia)) as H1.
    rewrite Qdiv_0_n in H0. rewrite Qdiv_n_n in H1. split; lra.
Qed.

Lemma pos_of_lt (i j : Z) : (1 ≤ i < j)%Z → (j < n)%Z → pos_of i < pos_of j.
Proof using n_pos.
  intros Hij Hj. rewrite !pos_of_inner by lia. apply Qdiv_lt_n. lia.
Qed.
End falloff.

(* ===================================================================== *)
(** * More about the RenderController-based widget: its timer chains     *)
(* ===================================================================== *)
Module TickChains.
Import SpinnerA TickRing.

(** A property kept by every event holds in every state the events reach. *)
Lemma run_invariant (P : Spinner → Prop) es : ∀ s s',
  (∀ e s1 s2, P s1 → step e s1 = Ok s2 → P s2) →
  P s → run es s = Ok s' → P s'.
Proof.
  induction es as [|e es IH]; intros s s' Hstep Hs; simpl.
  - by intros [= <-].
  - destruct (step e s) as [s1|] eqn:E; [|done]. simpl.
    apply IH; [done|]. by eapply Hstep.
Qed.

(** One firing of the timer, by run state. *)
Lemma fire_spec s s' :
  fire s = Ok s' →
  spinnerState s' = spinnerState s ∧ shown s' = shown s ∧
  options s' = options s ∧
  timeouts s' = (if (spinnerState s =? ON)%Z then timeouts s
                 else pred (timeouts s)).
Proof.
  unfold fire. destruct (timeouts s) as [|n] eqn:E.
  - intros [= <-]. rewrite E. by destruct (spinnerState s =? ON)%Z.
  - intros (_ & _ & Ho & _ & Hst & Hsh & Hto)%incrementSpinner_list.
    simpl in *. rewrite Hto. by destruct (spinnerState s =? ON)%Z.
Qed.

Lemma fire_pending u p s :
  (0 < ticks (resolve u))%Z → at_phase u p s → 0 < timeouts s →
  ∃ s', fire s = Ok s' ∧ at_phase u (S p) s'.
Proof.
  intros HN Hs Hto. unfold fire.
  destruct (timeouts s) as [|n] eqn:E; [lia|].
  match goal with |- context [incrementSpinner ?x] => set (s1 := x) end.
  assert (at_phase u p s1) as Hs1 by (by eapply at_phase_frame).
  destruct (incrementSpinner_Ok s1) as [s' E'].
  { by eapply at_phase_nonempty. }
  exists s'. split; [done|]. by eapply at_phase_incrementSpinner.
Qed.

(** With the widget ON and a timeout pending, [k] firings advance the phase
    by [k] and leave as many timeouts pending. *)
Lemma run_fires_on u k : ∀ p s,
  (0 < ticks (resolve u))%Z → at_phase u p s →
  spinnerState s = ON → 0 < timeouts s →
  ∃ s', run (repeat Timeout k) s = Ok s' ∧ at_phase u (k + p) s' ∧
        spinnerState s' = ON ∧ timeouts s' = timeouts s ∧
        shown s' = shown s.
Proof.
  induction k as [|k IH]; intros p s HN Hs Hon Hto; simpl.
  - by exists s.
  - destruct (fire_pending u p s HN Hs Hto) as (s1 & E & Hs1).
    rewrite E. simpl.
    pose proof (fire_spec _ _ E) as (Hst & Hsh & _ & Hto1).
    rewrite Hon in Hto1, Hst. simpl in Hto1.
    destruct (IH (S p) s1 HN Hs1 Hst ltac:(lia)) as (s' & -> & Hp' & ? & ? & ?).
    exists s'. split_and!; [done| |done|congruence|congruence].
    by replace (S (k + p)) with (k + S p) by lia.
Qed.

(** With the widget OFF, the [n] pending timeouts fire once each and none is
    left. *)
Lemma run_drain u n : ∀ p s,
  (0 < ticks (resolve u))%Z → at_phase u p s →
  spinnerState s = OFF → timeouts s = n →
  ∃ s', run (repeat Timeout n) s = Ok s' ∧ at_phase u (n + p) s' ∧
        spinnerState s' = OFF ∧ timeouts s' = 0 ∧ shown s' = shown s.
Proof.
  induction n as [|n IH]; intros p s HN Hs Hoff Hto; simpl.
  - by exists s.
  - destruct (fire_pending u p s HN Hs ltac:(lia)) as (s1 & E & Hs1).
    rewrite E. simpl.
    pose proof (fire_spec _ _ E) as (Hst & Hsh & _ & Hto1).
    rewrite Hoff in Hto1, Hst. simpl in Hto1.
    destruct (IH (S p) s1 HN Hs1 Hst ltac:(lia)) as (s' & -> & Hp' & ? & ? & ?).
    exists s'. split_and!; [done| |done|done|congruence].
    by replace (S (n + p)) with (n + S p) by lia.
Qed.

Lemma run_idle k s : timeouts s = 0 → run (repeat Timeout k) s = Ok s.
Proof.
  intros Hto. induction k as [|k IH]; simpl; [done|].
  unfold fire. rewrite Hto. simpl. exact IH.
Qed.

(** Two phases of one widget differ by the rotation between them. *)
Lemma at_phase_opacities_between u p n s s' :
  at_phase u p s → at_phase u (n + p) s' →
  rotate n (opacities s') = opacities s.
Proof.
  intros Hs Hs'. apply (rotate_inj p). rewrite rotate_rotate.
  replace (p + n) with (n + p) by lia.
  by rewrite (at_phase_opacities _ _ _ Hs), (at_phase_opacities _ _ _ Hs').
Qed.

(** A store is determined by its transforms and its opacities. *)
Lemma modifiers_eq (l1 l2 : list StateModifier) :
  transform <$> l1 = transform <$> l2 → opacity <$> l1 = opacity <$> l2 →
  l1 = l2.
Proof.
  revert l2. induction l1 as [|[t1 o1] l1 IH]; intros [|[t2 o2] l2]; try done.
  simpl. intros [= -> Ht] [= -> Ho]. f_equal. by apply IH.
Qed.

(** The run state is OFF or ON, and the widget is shown exactly when ON. *)
Definition shown_when_on (s : Spinner) : Prop :=
  (spinnerState s = ON ∧ shown s = true) ∨
  (spinnerState s = OFF ∧ shown s = false).

Lemma shown_when_on_step e s s' :
  shown_when_on s → step e s = Ok s' → shown_when_on s'.
Proof.
  intros Hs. destruct e; simpl.
  - intros [= <-]. by left.
  - intros [= <-]. by right.
  - intros (Hst & Hsh & _)%fire_spec. unfold shown_when_on.
    by rewrite Hst, Hsh.
Qed.

End TickChains.

(* ===================================================================== *)
(** * Range of the tick opacities, and two periods                      *)
(* ===================================================================== *)

Section tick_opacity_range.
Local Open Scope Q_scope.
Variable N : Z.
Hypothesis N_pos : (0 < N)%Z.


End tick_opacity_range.

Lemma rotate_add_length {A} (l : list A) p :
  rotate (length l + p) l = rotate p l.
Proof.
  unfold rotate. replace ((length l + p) `mod` length l) with (p `mod` length l);
    [done|].
  destruct (decide (length l = 0)) as [->|Hne]; [done|].
  rewrite <- (Nat.Div0.mod_add p 1 (length l)). f_equal. lia.
Qed.

Lemma gradient_at_period n k :
  LineRing.gradient_at n (Z.of_nat (k + n)) = LineRing.gradient_at n (Z.of_nat k).
Proof.
  unfold LineRing.gradient_at. apply list_fmap_ext. intros j i Hi.
  apply lookup_seq in Hi as [-> Hi]. simpl.
  apply LineRing.spinLineOpacity_rem.
  rewrite !Z.rem_mod_nonneg by lia.
  replace (Z.of_nat n - Z.of_nat j + Z.of_nat (k + n))%Z
    with (Z.of_nat n - Z.of_nat j + Z.of_nat k + 1 * Z.of_nat n)%Z by lia.
  apply Z_mod_plus_full.
Qed.

(* ===================================================================== *)
(** * The layout the first constructor builds                             *)
(* ===================================================================== *)
Module TickLayout.
Import SpinnerA TickRing.

(** The render chain the constructor adds for index [i]. *)
Definition tick_chain (o : Options) (i : nat) : RenderChain :=
  {| chain_opacityModifier := i;
     chain_rotationModifier :=
       {| transform :=
            rotateZ ((1 # 2) + 1 / inject_Z (ticks o) * 2 * inject_Z (Z.of_nat i))%Q;
          opacity := 1 |};
     chain_surface :=
       {| surface_size := (Math_round (fst (size o) * 0.05),
                           Math_round (snd (size o) * 0.3));
          backgroundColor := color o |} |}.

Lemma fold_add_tick_chains tw th ai cr l : ∀ s,
  renderNode (fold_left (add_tick tw th ai cr) l s) =
  renderNode s ++
  imap (λ k i,
          {| chain_opacityModifier := length (modifiers s) + k;
             chain_rotationModifier :=
               {| transform :=
                    rotateZ ((1 # 2) + 1 / inject_Z (ticks (options s)) * 2
                                       * inject_Z (Z.of_nat i))%Q;
                  opacity := 1 |};
             chain_surface :=
               {| surface_size := (tw, th);
                  backgroundColor := color (options s) |} |}) l.
Proof.
  induction l as [|i l IH]; intros s; simpl.
  - by rewrite app_nil_r.
  - rewrite IH. simpl. rewrite <- app_assoc. simpl.
    rewrite Nat.add_0_r. do 2 f_equal.
    apply imap_ext. intros k j _. simpl. rewrite length_app. simpl.
    f_equal. lia.
Qed.

Lemma new_chains u :
  renderNode (new u) = tick_chain (resolve u) <$> seq 0 (tick_count (resolve u)).
Proof.
  unfold new. cbv zeta. rewrite fold_add_tick_chains.
  cbn [renderNode modifiers options app].
  apply list_eq. intros i.
  rewrite list_lookup_imap, list_lookup_fmap. unfold tick_count.
  destruct (seq 0 (Z.to_nat (ticks (resolve u))) !! i) as [j|] eqn:E; [|done].
  apply lookup_seq in E as [-> _]. done.
Qed.

End TickLayout.

(* ===================================================================== *)
(** * More about the View-based widget: intervals, spin and callbacks    *)
(* ===================================================================== *)
Module LineTimers.
Import SpinnerB LineRing.

(** What an interval callback leaves alone. *)
Definition same_but_lines (s s' : Spinner) : Prop :=
  options s' = options s ∧ rotateModifiers s' = rotateModifiers s ∧
  spinInterval s' = spinInterval s ∧ stop_timeouts s' = stop_timeouts s ∧
  next_handle s' = next_handle s ∧ calls s' = calls s ∧
  length (spinLineModifiers s') = length (spinLineModifiers s).

Lemma same_but_lines_refl s : same_but_lines s s.
Proof. by repeat split. Qed.

Lemma same_but_lines_trans s1 s2 s3 :
  same_but_lines s1 s2 → same_but_lines s2 s3 → same_but_lines s1 s3.
Proof.
  intros (?&?&?&?&?&?&?) (?&?&?&?&?&?&?). repeat split; congruence.
Qed.

Lemma interval_callback_frame iv s s' :
  interval_callback iv s = Ok s' → same_but_lines s s'.
Proof.
  unfold interval_callback. case_decide; [|done]. intros [= <-].
  repeat split. simpl. by rewrite length_set_line_opacities.
Qed.

(** A tick of the interval registered last, when no older one shares its
    handle. *)
Lemma tick_newest (l : list Interval) iv s :
  intervals s = l ++ [iv] →
  Forall (λ iv', handle iv' ≠ handle iv) l →
  count iv = length (spinLineModifiers s) →
  ∃ s', step (Tick (handle iv)) s = Ok s' ∧
    intervals s' = l ++ [ {| handle := handle iv; count := count iv;
                             t := (t iv + 1)%Z |} ] ∧
    opacities s' = gradient_at (count iv) (t iv) ∧
    same_but_lines s s'.
Proof.
  intros Hi Hfresh Hc.
  destruct (interval_callback_spec iv s Hc)
    as (s' & E & Hop & _ & _ & Hi' & _).
  exists s'. split_and!; [| |done|by eapply interval_callback_frame].
  - simpl. rewrite Hi, list_find_app_r.
    + simpl. rewrite decide_True by done. done.
    + apply list_find_None. eapply Forall_impl; [exact Hfresh|]. done.
  - rewrite Hi', Hi, fmap_app. simpl. rewrite decide_True by done.
    f_equal. apply fmap_fixed. eapply Forall_impl; [exact Hfresh|].
    simpl. intros iv' Hne. by rewrite decide_False.
Qed.

(** [k] ticks of that interval: its phase counter advances by [k], and the
    lines show the phase of the last tick. *)
Lemma ticks_newest (l : list Interval) h n k : ∀ t0 s,
  intervals s = l ++ [ {| handle := h; count := n; t := t0 |} ] →
  Forall (λ iv', handle iv' ≠ h) l →
  n = length (spinLineModifiers s) →
  ∃ s', run (repeat (Tick h) k) s = Ok s' ∧
    intervals s' = l ++ [ {| handle := h; count := n;
                             t := (t0 + Z.of_nat k)%Z |} ] ∧
    opacities s' =
      (match k with
       | O => opacities s
       | S k' => gradient_at n (t0 + Z.of_nat k')
       end) ∧
    same_but_lines s s'.
Proof.
  induction k as [|k IH]; intros t0 s Hi Hfresh Hn.
  - exists s. simpl. rewrite Z.add_0_r.
    split_and!; [done..|apply same_but_lines_refl].
  - replace (repeat (Tick h) (S k)) with (repeat (Tick h) k ++ [Tick h])
      by (by rewrite <- repeat_cons).
    destruct (IH t0 s Hi Hfresh Hn) as (s1 & E1 & Hi1 & _ & Hf1).
    rewrite run_lines_app, E1.
    destruct (tick_newest l _ s1 Hi1 Hfresh) as (s' & E & Hi' & Hop & Hf).
    { simpl. destruct Hf1 as (_&_&_&_&_&_&->). done. }
    simpl in E, Hi', Hop. simpl. rewrite E. simpl.
    exists s'. split_and!; [done| |done|by eapply same_but_lines_trans].
    rewrite Hi'. do 3 f_equal. lia.
Qed.

Lemma run_lines_cons e es s : run (e :: es) s = bind (step e s) (run es).
Proof. reflexivity. Qed.

(** In a reachable state every registered handle is older than the next
    one. *)
Lemma wf_fresh o s :
  wf o s → Forall (λ iv, handle iv ≠ next_handle s) (intervals s).
Proof.
  intros []. eapply Forall_impl; [done|]. simpl. intros iv (_ & _ & ?). lia.
Qed.

Lemma clear_newest (l : list Interval) iv :
  Forall (λ iv', handle iv' ≠ handle iv) l →
  filter (λ iv', handle iv' ≠ handle iv) (l ++ [iv]) = l.
Proof.
  intros Hfresh. rewrite filter_app, filter_all_true by done.
  rewrite filter_cons_False by (simpl; by intros ?). by rewrite app_nil_r.
Qed.

End LineTimers.

(* ===================================================================== *)
(** * Callbacks of the View-based widget                                  *)
(* ===================================================================== *)
Module LineCallbacks.
Import SpinnerB LineRing LineTimers.

(** A value that [if (cb) cb()] handles without raising: a falsy value or
    a function. *)
Definition safe_callback (v : value) : bool :=
  match v with
  | number q => Qeq_bool q 0
  | _ => true
  end.

(** The value [fade] ends up with in [cb], by the number of arguments. *)
Definition fade_callback (arguments : list value) : value :=
  if (length arguments =? 1)%nat
  then default undefined (arguments !! 0)
  else default undefined (arguments !! 1).

(** An event whose callback argument, if any, is safe. *)
Definition safe_event (e : event) : bool :=
  match e with
  | Stop cb | Reset cb | Spin _ cb => safe_callback cb
  | Fade arguments => safe_callback (fade_callback arguments)
  | _ => true
  end.

(** Every callback the world still holds for the widget is safe. *)
Definition safe_pending (s : Spinner) : Prop :=
  Forall (λ v, safe_callback v = true) (stop_timeouts s) ∧
  Forall (λ m, Forall (λ tr, ∀ cb, transition_callback tr = Some cb →
                             safe_callback cb = true) (queue m))
    (rotateModifiers s).

Lemma safe_callback_stop cb s :
  safe_callback cb = true → ∃ s', stop cb s = Ok s'.
Proof.
  intros Hcb. apply stop_Ok. intros q ->. exact Hcb.
Qed.

Lemma safe_pending_stop cb s s' :
  safe_pending s → stop cb s = Ok s' → safe_pending s'.
Proof.
  intros [H1 H2] (_ & _ & Hr & _ & _ & _ & Hst & _)%stop_spec.
  split; by rewrite ?Hr, ?Hst.
Qed.

Lemma fade_imap arguments s :
  ∃ d, fade arguments s =
       set_rotateModifiers
         (imap (λ i, setOpacity 0 (Some (d, fadeCurve (options s)))
                       (if (i =? 0)%nat then Some (fade_callback arguments)
                        else None))
            (rotateModifiers s))
         s.
Proof.
  unfold fade, fade_callback.
  destruct (length arguments =? 1)%nat; eexists;
    by rewrite fold_alter_seq_imap.
Qed.

Lemma safe_pending_fade arguments s :
  safe_callback (fade_callback arguments) = true →
  safe_pending s → safe_pending (fade arguments s).
Proof.
  intros Hcb [H1 H2]. destruct (fade_imap arguments s) as [d ->].
  split; [done|]. simpl. apply Forall_lookup. intros i m'.
  rewrite list_lookup_imap.
  destruct (rotateModifiers s !! i) as [m|] eqn:E; [|done].
  simpl. intros [= <-]. simpl. apply Forall_app. split.
  - by eapply (Forall_lookup_1 _ _ _ _ H2).
  - constructor; [|constructor]. simpl. intros cb.
    destruct (i =? 0)%nat; [|done]. by intros [= <-].
Qed.

Lemma safe_pending_reset cb s s' :
  safe_pending s → reset cb s = Ok s' → safe_pending s'.
Proof.
  intros [H1 H2]. unfold reset. case_decide; [|done].
  apply safe_pending_stop. split; [done|]. simpl.
  apply Forall_lookup. intros i m'.
  rewrite lookup_fold_alter_seq.
  case_decide.
  - destruct (rotateModifiers s !! i); [|done]. simpl. intros [= <-].
    simpl. constructor.
  - intros Hm. by eapply (Forall_lookup_1 _ _ _ _ H2).
Qed.

Lemma safe_pending_step o e s :
  wf o s → safe_pending s → safe_event e = true →
  ∃ s', step e s = Ok s' ∧ safe_pending s'.
Proof.
  intros Hwf Hs He. pose proof Hs as [H1 H2].
  destruct e as [|cb|t cb|arguments|cb|h|k|i]; simpl in *.
  - eexists. split; [done|]. done.
  - destruct (safe_callback_stop cb s He) as [s' E].
    exists s'. split; [done|]. by eapply safe_pending_stop.
  - eexists. split; [done|]. split; simpl; [|done].
    apply Forall_app. split; [done|]. by constructor.
  - eexists. split; [done|]. by apply safe_pending_fade.
  - destruct (reset_Ok cb s) as [s' E].
    { destruct Hwf. congruence. }
    { intros q ->. exact He. }
    exists s'. split; [done|]. by eapply safe_pending_reset.
  - destruct (list_find _ _) as [[j iv]|] eqn:E; [|by exists s].
    apply list_find_Some in E as (Hj & _ & _).
    destruct (interval_callback_spec iv s) as (s' & E' & _ & _ & Hr & _).
    { pose proof Hwf as [_ Hl _ _ Hiv].
      rewrite list.Forall_forall in Hiv.
      destruct (Hiv iv) as (-> & _); [by eapply list_elem_of_lookup_2|done]. }
    exists s'. split; [done|].
    apply interval_callback_frame in E' as (_ & Hr' & _ & Hst & _).
    split; by rewrite ?Hr', ?Hst.
  - destruct (stop_timeouts s !! k) as [cb|] eqn:E; [|by exists s].
    destruct (safe_callback_stop cb
                (set_stop_timeouts (delete k (stop_timeouts s)) s))
      as [s' E']; [by eapply (Forall_lookup_1 _ _ _ _ H1)|].
    exists s'. split; [done|]. eapply safe_pending_stop; [|done].
    split; simpl; [by apply Forall_delete|done].
  - unfold transition_end.
    destruct (rotateModifiers s !! i) as [m|] eqn:E; [|by exists s].
    destruct (queue m) as [|tr q] eqn:Eq; [by exists s|].
    pose proof (Forall_lookup_1 _ _ _ _ H2 E) as Hm. simpl in Hm.
    rewrite Eq in Hm.
    apply list.Forall_cons in Hm as [Htr Hq].
    match goal with |- context [set_rotateModifiers ?l s] =>
      assert (safe_pending (set_rotateModifiers l s)) as Hs1
    end.
    { split; simpl; [done|]. apply Forall_insert; [done|]. done. }
    destruct (transition_callback tr) as [cb|] eqn:Ecb.
    + edestruct (safe_callback_stop cb) as [s' E']; [by apply Htr|].
      exists s'. split; [done|]. by eapply safe_pending_stop.
    + eexists. split; [done|]. done.
Qed.

Lemma safe_events_run o es : ∀ s,
  wf o s → safe_pending s → forallb safe_event es = true →
  ∃ s', run es s = Ok s'.
Proof.
  induction es as [|e es IH]; intros s Hwf Hs Hes; simpl; [eauto|].
  simpl in Hes. apply andb_prop in Hes as [He Hes].
  destruct (safe_pending_step o e s Hwf Hs He) as (s1 & E & Hs1).
  rewrite E. simpl. apply IH; [|done..]. by eapply wf_step.
Qed.

(** A [spin] timeout firing: the [k]-th pending one, holding [function f]. *)
Lemma spin_timeout_fires st1 f st2 s :
  stop_timeouts s = st1 ++ function f :: st2 →
  ∃ s', step (SpinTimeout (length st1)) s = Ok s' ∧
    stop_timeouts s' = st1 ++ st2 ∧ intervals s' = cleared s ∧
    calls s' = calls s ++ [f] ∧ spinInterval s' = spinInterval s ∧
    spinLineModifiers s' = spinLineModifiers s.
Proof.
  intros Hst. simpl. rewrite Hst, list_lookup_middle by done.
  rewrite delete_middle.
  match goal with |- context [stop _ ?x] => set (s1 := x) end.
  destruct (stop_Ok (function f) s1) as [s' E]; [done|].
  exists s'. split; [done|].
  by apply stop_spec in E as (_ & ? & _ & _ & ? & ? & ? & _ & ?).
Qed.

End LineCallbacks.

(* ===================================================================== *)
(** * Range of the falloff of the View-based widget                       *)
(* ===================================================================== *)
Module LineFalloff.
Import SpinnerB LineRing.
Local Open Scope Q_scope.

(** At phase [0], line [i] of [n] gets an opacity above [0.1] and at most
    [1], and [1] only for the line [0]. *)
Lemma spinLineOpacity_range (n i : nat) :
  (i < n)%nat →
  let x := _spinLineOpacity (Z.of_nat i) 0 (Z.of_nat n) in
  0.1 < x ∧ x <= 1 ∧ (x == 1 ↔ i = 0%nat).
Proof.
  intros Hi. cbv zeta.
  assert (0 < Z.of_nat n)%Z as Hn by lia.
  rewrite (spinLineOpacity_pos _ Hn) by lia.
  destruct i as [|i].
  - pose proof (pos_of_0 _ Hn) as H0. change (Z.of_nat 0) with 0%Z.
    rewrite H0. split_and!; [lra|lra|]. split; [done|lra].
  - pose proof (pos_of_inner _ Hn (Z.of_nat (S i)) ltac:(lia)) as Hp.
    pose proof (Qdiv_lt_n _ Hn 0 (Z.of_nat (S i)) ltac:(lia)) as Hlo.
    pose proof (Qdiv_lt_n _ Hn (Z.of_nat (S i)) (Z.of_nat n) ltac:(lia))
      as Hhi.
    rewrite Qdiv_0_n in Hlo. rewrite (Qdiv_n_n _ Hn) in Hhi.
    rewrite <- Hp in Hlo, Hhi.
    set (p := pos_of (Z.of_nat n) (Z.of_nat (S i))) in *.
    split_and!; [nra|nra|]. split; [intros Hx; nra|done].
Qed.

Definition full (x : Q) : Prop := Qeq_bool x 1 = true.

Lemma gradient_at_0_range (n : nat) :
  (0 < n)%nat →
  Forall (λ x, 0.1 < x ∧ x <= 1) (gradient_at n 0) ∧
  length (filter full (gradient_at n 0)) = 1%nat.
Proof.
  intros Hn. unfold gradient_at. split.
  - apply Forall_fmap, Forall_forall. intros i Hi%elem_of_seq. simpl.
    destruct (spinLineOpacity_range n i) as (? & ? & _); [lia|done].
  - destruct n as [|n]; [lia|]. simpl seq. rewrite fmap_cons.
    rewrite filter_cons_True.
    2:{ apply Qeq_bool_iff. by apply (spinLineOpacity_range (S n) 0). }
    simpl. f_equal.
    assert (Forall (λ x, ¬ full x)
              ((λ i, _spinLineOpacity (Z.of_nat i) 0 (Z.of_nat (S n)))
                 <$> seq 1 n)) as Hall.
    { apply Forall_fmap, Forall_forall. intros i Hi%elem_of_seq. simpl.
      intros Hx%Qeq_bool_iff.
      apply (spinLineOpacity_range (S n) i) in Hx; lia. }
    induction Hall as [|x l Hx _ IH]; [done|].
    by rewrite filter_cons_False.
Qed.

End LineFalloff.

(* ===================================================================== *)
(** * The specification's properties, checked against the two widgets    *)
(* ===================================================================== *)

(** C1, as stated, fails.  On the first widget with four ticks, after
    [start()] and one firing of the timer the element now at list position
    [0] has opacity [0.1], while the element that was at list position [1]
    (the same element) held [0.35].  Read by fixed angular position the
    statement fails as well: the element at position [0] now has [0.85]. *)
Lemma first_position_does_not_take_second_opacity :
  ∃ s s' now before fixed,
    s = SpinnerA.start (SpinnerA.new (SpinnerA.with_ticks 4)) ∧
    SpinnerA.fire s = Ok s' ∧
    SpinnerA.opacity_at s' 0 = Some now ∧
    SpinnerA.opacity_at s 1 = Some before ∧
    SpinnerA.opacities s' !! 0 = Some fixed ∧
    (now == 0.1)%Q ∧ (before == 0.35)%Q ∧ (fixed == 0.85)%Q ∧
    ¬ (now == before)%Q ∧ ¬ (fixed == before)%Q.
Proof.
  eexists _, _, _, _, _.
  split_and!; [reflexivity|vm_compute; reflexivity..| | | | |]; done.
Qed.

(** C1, amended.  First widget (rotate-the-list): a scheduler tick moves the
    first element of the array to the end, so the element now at list
    position [i] is the one that was at position [(1 + i) mod N] (the one
    now at position [0] was at position [1]); the opacity at every list
    position is reassigned by the same formula [i / N + 0.1] and is what
    that position held before, so the element now at position [0] takes the
    opacity previously at position [0].  Read by fixed angular position, the
    gradient moves by exactly one step: rotating the new opacities by one
    gives the old ones.  Second widget: the array is never reordered; the
    tick that follows [k] earlier ticks of the interval paints phase [k],
    and each tick after the first moves the gradient by exactly one step. *)
Theorem tick_rotates_list_under_fixed_gradient
    (u : option SpinnerA.UserOptions) (es : list SpinnerA.event)
    (a a' : SpinnerA.Spinner)
    (o : SpinnerB.Options) (k : nat) (b b' : SpinnerB.Spinner) :
  SpinnerA.run es (SpinnerA.new u) = Ok a →
  SpinnerA.incrementSpinner a = Ok a' →
  SpinnerB.run (SpinnerB.Start :: repeat (SpinnerB.Tick 0) (S k))
    (SpinnerB.new o) = Ok b →
  SpinnerB.step (SpinnerB.Tick 0) b = Ok b' →
  let N := Z.to_nat (SpinnerA.ticks (SpinnerA.resolve u)) in
  (SpinnerA.tickOpacityModifiers a'
     = rotate 1 (SpinnerA.tickOpacityModifiers a) ∧
   (∀ i, i < N →
      SpinnerA.tickOpacityModifiers a' !! i =
      SpinnerA.tickOpacityModifiers a !! rotate_nat_add 1 i N) ∧
   (∀ i, i < N →
      SpinnerA.opacity_at a' i
        = Some (SpinnerA.tick_opacity (SpinnerA.ticks (SpinnerA.resolve u)) i) ∧
      SpinnerA.opacity_at a' i = SpinnerA.opacity_at a i) ∧
   rotate 1 (SpinnerA.opacities a') = SpinnerA.opacities a)
  ∧
  (SpinnerB.opacities b'
     = LineRing.gradient_at (LineRing.line_count o) (Z.of_nat (S k)) ∧
   rotate 1 (SpinnerB.opacities b') = SpinnerB.opacities b).
Proof.
  intros Ha Ha' Hb Hb' N. split.
  - destruct (TickRing.reachable_at_phase _ _ _ Ha) as [p Hp].
    pose proof (TickRing.at_phase_incrementSpinner _ _ _ _ Hp Ha') as Hp'.
    pose proof (TickRing.incrementSpinner_list _ _ Ha') as (Hl & _).
    assert (length (SpinnerA.tickOpacityModifiers a) = N) as Hlen.
    { destruct Hp as [_ -> _ _ _ _]. by rewrite length_rotate, length_seq. }
    assert (∀ q s i, TickRing.at_phase u q s → i < N →
              SpinnerA.opacity_at s i =
              Some (SpinnerA.tick_opacity
                      (SpinnerA.ticks (SpinnerA.resolve u)) i)) as Hat.
    { intros q s i Hs Hi. unfold SpinnerA.opacity_at.
      pose proof Hs as [_ Hlist _ _ _ Hop].
      specialize (Hop i (rotate_nat_add q i N)).
      rewrite Hlist, lookup_rotate_seq in Hop |- * by done. simpl.
      by apply Hop. }
    split_and!.
    + done.
    + intros i Hi. rewrite Hl, lookup_rotate_r by lia. by rewrite Hlen.
    + intros i Hi. by rewrite (Hat _ _ _ Hp'), (Hat _ _ _ Hp).
    + apply (rotate_inj p). rewrite rotate_rotate.
      replace (p + 1) with (S p) by lia.
      by rewrite (TickRing.at_phase_opacities _ _ _ Hp'),
        (TickRing.at_phase_opacities _ _ _ Hp).
  - destruct (LineRing.tick_after_ticks _ _ _ Hb) as (b0 & E & Hop' & Hop).
    assert (b0 = b') as -> by congruence.
    split; [done|]. rewrite Hop', Hop. simpl.
    apply LineRing.rotate_gradient_at_S.
Qed.

Lemma tick_rotates_list_under_fixed_gradient_witness :
  ∃ a a' b b',
    SpinnerA.run [SpinnerA.Start; SpinnerA.Timeout]
      (SpinnerA.new (SpinnerA.with_ticks 3)) = Ok a ∧
    SpinnerA.incrementSpinner a = Ok a' ∧
    SpinnerB.run (SpinnerB.Start :: repeat (SpinnerB.Tick 0) 2)
      (SpinnerB.new (SpinnerB.with_lines 3)) = Ok b ∧
    SpinnerB.step (SpinnerB.Tick 0) b = Ok b' ∧
    rotate 1 (SpinnerA.opacities a') = SpinnerA.opacities a ∧
    rotate 1 (SpinnerB.opacities b') = SpinnerB.opacities b.
Proof.
  eexists _, _, _, _.
  split_and!; [vm_compute; reflexivity..| |].
  - eapply (tick_rotates_list_under_fixed_gradient
              (SpinnerA.with_ticks 3) [SpinnerA.Start; SpinnerA.Timeout]
              _ _ (SpinnerB.with_lines 3) 1); vm_compute; reflexivity.
  - eapply (tick_rotates_list_under_fixed_gradient
              (SpinnerA.with_ticks 3) [SpinnerA.Start; SpinnerA.Timeout]
              _ _ (SpinnerB.with_lines 3) 1); vm_compute; reflexivity.
Defined.

(** C2, as stated, fails on the first widget: [stop()] only clears the run
    state, so the timeout that [start()] scheduled still fires afterwards,
    and [incrementSpinner] rotates the array and reassigns the opacities
    before it looks at the run state. *)
Lemma pending_tick_still_mutates_after_stop :
  ∃ s s' x y,
    SpinnerA.run [SpinnerA.Start; SpinnerA.Stop]
      (SpinnerA.new (SpinnerA.with_ticks 4)) = Ok s ∧
    SpinnerA.step SpinnerA.Timeout s = Ok s' ∧
    SpinnerA.opacities s !! 0 = Some x ∧
    SpinnerA.opacities s' !! 0 = Some y ∧
    (x == 0.1)%Q ∧ (y == 0.85)%Q ∧ ¬ (x == y)%Q.
Proof.
  eexists _, _, _, _.
  split_and!; [vm_compute; reflexivity..| | |]; done.
Qed.

(** C2, amended.  [stop()] is idempotent in both widgets.  In the first
    widget it cancels nothing: a timeout that is already scheduled still
    runs [incrementSpinner] once after [stop()], rotating the array and
    reassigning the opacities, but it is not rescheduled (the widget stays
    OFF and one fewer timeout is pending).  In the second widget [stop()]
    clears the interval held in [spinInterval]: no interval with that
    handle is registered afterwards and a tick of it no longer happens. *)
Theorem stop_is_idempotent_and_ends_rescheduling
    (a a' : SpinnerA.Spinner) (b b1 : SpinnerB.Spinner)
    (cb : SpinnerB.value) (h : nat) :
  SpinnerA.fire (SpinnerA.stop a) = Ok a' →
  SpinnerB.spinInterval b = Some h →
  SpinnerB.stop cb b = Ok b1 →
  (SpinnerA.stop (SpinnerA.stop a) = SpinnerA.stop a ∧
   SpinnerA.spinnerState a' = SpinnerA.OFF ∧
   SpinnerA.timeouts a' = pred (SpinnerA.timeouts a) ∧
   (SpinnerA.timeouts a = 0 → a' = SpinnerA.stop a) ∧
   (0 < SpinnerA.timeouts a →
      SpinnerA.tickOpacityModifiers a'
        = rotate 1 (SpinnerA.tickOpacityModifiers a) ∧
      SpinnerA.modifiers a'
        = SpinnerA.reassign (SpinnerA.ticks (SpinnerA.options a)) 0
            (SpinnerA.tickOpacityModifiers a') (SpinnerA.modifiers a)))
  ∧
  (SpinnerB.stop SpinnerB.undefined b1 = Ok b1 ∧
   SpinnerB.intervals b1
     = filter (λ iv, SpinnerB.handle iv ≠ h) (SpinnerB.intervals b) ∧
   (∀ iv, iv ∈ SpinnerB.intervals b1 → SpinnerB.handle iv ≠ h) ∧
   SpinnerB.step (SpinnerB.Tick h) b1 = Ok b1).
Proof.
  intros Ha Hh Hb. split.
  - split; [done|]. unfold SpinnerA.fire in Ha. simpl in Ha.
    destruct (SpinnerA.timeouts a) as [|n] eqn:E.
    + injection Ha as <-. simpl. split_and!; [done..|lia].
    + apply TickRing.incrementSpinner_list in Ha
        as (Hl & Hm & _ & _ & Hst & _ & Hto).
      simpl in *. split_and!; [done|done|done|done].
  - apply LineRing.stop_spec in Hb as (_ & _ & _ & _ & Hsp & Hi & _).
    unfold LineRing.cleared in Hi. rewrite Hh in Hi.
    assert (∀ iv, iv ∈ SpinnerB.intervals b1 → SpinnerB.handle iv ≠ h) as Hgone.
    { intros iv. rewrite Hi. by intros [? _]%list_elem_of_filter. }
    split_and!; [|done|done|].
    + unfold SpinnerB.stop, SpinnerB.Timer_clear. rewrite Hsp, Hh. simpl.
      rewrite Hi, filter_filter_same, <- Hi. by destruct b1.
    + simpl.
      replace (list_find (λ iv, SpinnerB.handle iv = h) (SpinnerB.intervals b1))
        with (@None (nat * SpinnerB.Interval)); [done|].
      symmetry. apply list_find_None, list.Forall_forall.
      intros iv Hiv. by apply Hgone.
Qed.

Lemma stop_is_idempotent_and_ends_rescheduling_witness :
  ∃ a a' b b1,
    a = SpinnerA.start (SpinnerA.new (SpinnerA.with_ticks 3)) ∧
    SpinnerA.fire (SpinnerA.stop a) = Ok a' ∧
    b = SpinnerB.start (SpinnerB.new (SpinnerB.with_lines 3)) ∧
    SpinnerB.stop SpinnerB.undefined b = Ok b1 ∧
    SpinnerA.timeouts a' = 0 ∧
    SpinnerB.step (SpinnerB.Tick 0) b1 = Ok b1.
Proof.
  eexists _, _, _, _.
  split_and!; [reflexivity|vm_compute; reflexivity|reflexivity|
               vm_compute; reflexivity| |].
  - eapply (stop_is_idempotent_and_ends_rescheduling
              (SpinnerA.start (SpinnerA.new (SpinnerA.with_ticks 3))) _
              (SpinnerB.start (SpinnerB.new (SpinnerB.with_lines 3))) _
              SpinnerB.undefined 0); vm_compute; reflexivity.
  - eapply (stop_is_idempotent_and_ends_rescheduling
              (SpinnerA.start (SpinnerA.new (SpinnerA.with_ticks 3))) _
              (SpinnerB.start (SpinnerB.new (SpinnerB.with_lines 3))) _
              SpinnerB.undefined 0); vm_compute; reflexivity.
Defined.

(** C3.  [start()] immediately followed by [stop()], with no timer event in
    between, leaves every tick element's opacity as it was; on a widget
    that was just constructed these are the construction-time values.  In
    the second widget the same holds whether or not [stop] is handed a
    callback [f], and the rotate modifiers are untouched as well. *)
Theorem start_then_stop_keeps_opacities
    (a : SpinnerA.Spinner) (b : SpinnerB.Spinner)
    (u : option SpinnerA.UserOptions) (o : SpinnerB.Options) (f : nat) :
  (∃ a', SpinnerA.run [SpinnerA.Start; SpinnerA.Stop] a = Ok a' ∧
         SpinnerA.modifiers a' = SpinnerA.modifiers a ∧
         SpinnerA.opacities a' = SpinnerA.opacities a) ∧
  (∃ a', SpinnerA.run [SpinnerA.Start; SpinnerA.Stop] (SpinnerA.new u) = Ok a' ∧
         SpinnerA.opacities a' = TickRing.gradient (SpinnerA.resolve u)) ∧
  (∃ b', SpinnerB.run [SpinnerB.Start; SpinnerB.Stop SpinnerB.undefined] b
           = Ok b' ∧
         SpinnerB.spinLineModifiers b' = SpinnerB.spinLineModifiers b ∧
         SpinnerB.rotateModifiers b' = SpinnerB.rotateModifiers b ∧
         SpinnerB.opacities b' = SpinnerB.opacities b) ∧
  (∃ b', SpinnerB.run [SpinnerB.Start; SpinnerB.Stop (SpinnerB.function f)] b
           = Ok b' ∧
         SpinnerB.spinLineModifiers b' = SpinnerB.spinLineModifiers b ∧
         SpinnerB.rotateModifiers b' = SpinnerB.rotateModifiers b ∧
         SpinnerB.opacities b' = SpinnerB.opacities b) ∧
  (∃ b', SpinnerB.run [SpinnerB.Start; SpinnerB.Stop SpinnerB.undefined]
           (SpinnerB.new o) = Ok b' ∧
         SpinnerB.opacities b'
           = LineRing.gradient_at (LineRing.line_count o) 0).
Proof.
  split_and!.
  - by exists (SpinnerA.stop (SpinnerA.start a)).
  - exists (SpinnerA.stop (SpinnerA.start (SpinnerA.new u))).
    split; [done|]. apply TickRing.new_opacities.
  - eexists. split; [reflexivity|done].
  - eexists. split; [reflexivity|done].
  - eexists. split; [reflexivity|]. apply LineRing.new_line_opacities.
Qed.

(** C4, as stated, fails on the second widget: its interval callback uses
    the phase counter before incrementing it, so after [start()] and one
    tick the lines still show the initial gradient, which is not that
    gradient shifted by one place in either direction. *)
Lemma first_tick_of_interval_repaints_phase_zero :
  ∃ s x y z,
    SpinnerB.run [SpinnerB.Start; SpinnerB.Tick 0]
      (SpinnerB.new (SpinnerB.with_lines 3)) = Ok s ∧
    SpinnerB.opacities s = SpinnerB.opacities (SpinnerB.new (SpinnerB.with_lines 3)) ∧
    SpinnerB.opacities s = [x; y; z] ∧
    ¬ (y == x)%Q ∧ ¬ (z == x)%Q.
Proof.
  eexists _, _, _, _.
  split_and!; [vm_compute; reflexivity..| |]; done.
Qed.

(** C4, amended.  While the widget spins, the opacities over the [N] fixed
    angular positions are a cyclic shift of the initial gradient, hence a
    permutation of it: after [start()] and [t] scheduler ticks the shift is
    [t] in the first widget, and [t - 1] in the second (for [t >= 1]; its
    first tick repaints phase [0]).  Rotating the displayed sequence back by
    the shift gives the initial gradient. *)
Theorem opacities_stay_a_cyclic_shift
    (u : option SpinnerA.UserOptions) (o : SpinnerB.Options) (t : nat)
    (a : SpinnerA.Spinner) (b : SpinnerB.Spinner) :
  SpinnerA.run (SpinnerA.Start :: repeat SpinnerA.Timeout t) (SpinnerA.new u)
    = Ok a →
  SpinnerB.run (SpinnerB.Start :: repeat (SpinnerB.Tick 0) t) (SpinnerB.new o)
    = Ok b →
  rotate t (SpinnerA.opacities a) = SpinnerA.opacities (SpinnerA.new u) ∧
  SpinnerA.opacities a ≡ₚ SpinnerA.opacities (SpinnerA.new u) ∧
  rotate (pred t) (SpinnerB.opacities b)
    = SpinnerB.opacities (SpinnerB.new o) ∧
  SpinnerB.opacities b ≡ₚ SpinnerB.opacities (SpinnerB.new o).
Proof.
  intros Ha Hb.
  assert (rotate t (SpinnerA.opacities a)
          = SpinnerA.opacities (SpinnerA.new u)) as HA.
  { simpl in Ha.
    destruct (TickRing.run_timeouts u t 0 _ _
                (TickRing.at_phase_start _ _ _ (TickRing.at_phase_new u))
                eq_refl (f_equal S (TickRing.new_timeouts u)) Ha)
      as (Hp & _).
    rewrite Nat.add_0_r in Hp.
    by rewrite (TickRing.at_phase_opacities _ _ _ Hp), TickRing.new_opacities. }
  assert (rotate (pred t) (SpinnerB.opacities b)
          = SpinnerB.opacities (SpinnerB.new o)) as HB.
  { destruct (LineRing.run_line_ticks o t) as (b0 & Hb0 & _ & _ & _ & Hop).
    assert (b0 = b) as -> by congruence.
    by rewrite Hop, LineRing.rotate_gradient_at, LineRing.new_line_opacities. }
  split_and!; [done| |done|].
  - by rewrite <- HA, rotate_Permutation.
  - by rewrite <- HB, rotate_Permutation.
Qed.

Lemma opacities_stay_a_cyclic_shift_witness :
  ∃ a b,
    SpinnerA.run (SpinnerA.Start :: repeat SpinnerA.Timeout 5)
      (SpinnerA.new (SpinnerA.with_ticks 4)) = Ok a ∧
    SpinnerB.run (SpinnerB.Start :: repeat (SpinnerB.Tick 0) 5)
      (SpinnerB.new (SpinnerB.with_lines 4)) = Ok b ∧
    rotate 5 (SpinnerA.opacities a)
      = SpinnerA.opacities (SpinnerA.new (SpinnerA.with_ticks 4)) ∧
    rotate 4 (SpinnerB.opacities b)
      = SpinnerB.opacities (SpinnerB.new (SpinnerB.with_lines 4)).
Proof.
  eexists _, _.
  split_and!; [vm_compute; reflexivity..| |].
  - eapply (opacities_stay_a_cyclic_shift (SpinnerA.with_ticks 4)
              (SpinnerB.with_lines 4) 5); vm_compute; reflexivity.
  - eapply (opacities_stay_a_cyclic_shift (SpinnerA.with_ticks 4)
              (SpinnerB.with_lines 4) 5); vm_compute; reflexivity.
Defined.

(** C5.  For every [N > 0], constructing a widget configured with [N]
    ticks (first widget) or [N] lines (second widget) creates exactly [N]
    tick elements: the ordered collection has length [N], the render tree
    holds one chain per element, each element attached exactly once (the
    chains' references are [0, 1, ..., N-1]), and the angular position of
    element [i] is [i * (360 / N)] degrees, a value in [[0, 360)]; the [N]
    positions are pairwise distinct. *)
Theorem constructor_creates_N_ticks
    (N : Z) (u : option SpinnerA.UserOptions) (o : SpinnerB.Options) :
  (0 < N)%Z →
  SpinnerA.ticks (SpinnerA.resolve u) = N →
  SpinnerB.lines o = N →
  let a := SpinnerA.new u in
  let b := SpinnerB.new o in
  (SpinnerA.tickOpacityModifiers a = seq 0 (Z.to_nat N) ∧
   length (SpinnerA.tickOpacityModifiers a) = Z.to_nat N ∧
   length (SpinnerA.modifiers a) = Z.to_nat N ∧
   SpinnerA.chain_opacityModifier <$> SpinnerA.renderNode a
     = seq 0 (Z.to_nat N) ∧
   (∀ i m, SpinnerA.modifiers a !! i = Some m →
      SpinnerA.degrees_of m == inject_Z (Z.of_nat i) * (360 / inject_Z N) ∧
      0 <= SpinnerA.degrees_of m ∧ SpinnerA.degrees_of m < 360)%Q ∧
   (∀ i j mi mj,
      SpinnerA.modifiers a !! i = Some mi →
      SpinnerA.modifiers a !! j = Some mj →
      (SpinnerA.degrees_of mi == SpinnerA.degrees_of mj)%Q → i = j))
  ∧
  (length (SpinnerB.spinLineModifiers b) = Z.to_nat N ∧
   length (SpinnerB.rotateModifiers b) = Z.to_nat N ∧
   SpinnerB.chain_rotateModifier <$> SpinnerB.renderTree b
     = seq 0 (Z.to_nat N) ∧
   SpinnerB.chain_spinLineModifier <$> SpinnerB.renderTree b
     = seq 0 (Z.to_nat N) ∧
   (∀ i m, SpinnerB.rotateModifiers b !! i = Some m →
      SpinnerB.degrees_of m == inject_Z (Z.of_nat i) * (360 / inject_Z N) ∧
      0 <= SpinnerB.degrees_of m ∧ SpinnerB.degrees_of m < 360)%Q ∧
   (∀ i j mi mj,
      SpinnerB.rotateModifiers b !! i = Some mi →
      SpinnerB.rotateModifiers b !! j = Some mj →
      (SpinnerB.degrees_of mi == SpinnerB.degrees_of mj)%Q → i = j)).
Proof.
  intros HN Hu Ho a b. split.
  - subst a.
    assert (∀ i m, SpinnerA.modifiers (SpinnerA.new u) !! i = Some m →
              (i < Z.to_nat N)%nat ∧
              SpinnerA.degrees_of m =
                (360 / inject_Z N * inject_Z (Z.of_nat i))%Q) as Hdeg.
    { intros i m. rewrite TickRing.new_modifiers, list_lookup_fmap.
      unfold TickRing.tick_count. rewrite Hu.
      destruct (seq 0 (Z.to_nat N) !! i) as [j|] eqn:E; [|done].
      apply lookup_seq in E as [-> Hi]. simpl. intros [= <-].
      split; [done|].
      unfold SpinnerA.degrees_of, TickRing.tick_modifier,
        SpinnerA.angleIncrement.
      simpl. by rewrite Hu. }
    split_and!.
    + rewrite TickRing.new_tickOpacityModifiers.
      unfold TickRing.tick_count. by rewrite Hu.
    + rewrite TickRing.new_tickOpacityModifiers, length_seq.
      unfold TickRing.tick_count. by rewrite Hu.
    + rewrite TickRing.new_modifiers, length_fmap, length_seq.
      unfold TickRing.tick_count. by rewrite Hu.
    + rewrite TickRing.new_renderNode.
      unfold TickRing.tick_count. by rewrite Hu.
    + intros i m [Hi ->]%Hdeg. split_and!.
      * apply Qmult_comm.
      * by apply angle_nonneg.
      * apply angle_below_turn; [done|done|lia].
    + intros i j mi mj [_ ->]%Hdeg [_ ->]%Hdeg. by apply angle_inj.
  - subst b.
    assert (∀ i m, SpinnerB.rotateModifiers (SpinnerB.new o) !! i = Some m →
              (i < Z.to_nat N)%nat ∧
              SpinnerB.degrees_of m =
                (2 / inject_Z N * inject_Z (Z.of_nat i) * 180)%Q) as Hdeg.
    { intros i m. rewrite LineRing.new_rotateModifiers, list_lookup_fmap.
      unfold LineRing.line_count. rewrite Ho.
      destruct (seq 0 (Z.to_nat N) !! i) as [j|] eqn:E; [|done].
      apply lookup_seq in E as [-> Hi]. simpl. intros [= <-].
      split; [done|].
      unfold SpinnerB.degrees_of, LineRing.rotate_modifier,
        SpinnerB.rotationOffset.
      simpl. by rewrite Ho. }
    assert (∀ i : nat,
              (2 / inject_Z N * inject_Z (Z.of_nat i) * 180 ==
               360 / inject_Z N * inject_Z (Z.of_nat i))%Q) as Hconv.
    { intros i. field. intros Hz.
      pose proof (inject_Z_pos N HN) as Hp. rewrite Hz in Hp.
      by apply Qlt_irrefl in Hp. }
    destruct (LineRing.new_renderTree o) as [-> ->].
    unfold LineRing.line_count. rewrite Ho. split_and!; try done.
    + rewrite LineRing.new_spinLineModifiers, length_fmap, length_seq.
      unfold LineRing.line_count. by rewrite Ho.
    + rewrite LineRing.new_rotateModifiers, length_fmap, length_seq.
      unfold LineRing.line_count. by rewrite Ho.
    + intros i m [Hi ->]%Hdeg. rewrite Hconv. split_and!.
      * apply Qmult_comm.
      * by apply angle_nonneg.
      * apply angle_below_turn; [done|done|lia].
    + intros i j mi mj [_ ->]%Hdeg [_ ->]%Hdeg. rewrite !Hconv.
      by apply angle_inj.
Qed.

Lemma constructor_creates_N_ticks_witness :
  (0 < 4)%Z ∧
  length (SpinnerA.modifiers (SpinnerA.new (SpinnerA.with_ticks 4))) = 4 ∧
  length (SpinnerB.rotateModifiers (SpinnerB.new (SpinnerB.with_lines 4))) = 4.
Proof.
  destruct (constructor_creates_N_ticks 4 (SpinnerA.with_ticks 4)
              (SpinnerB.with_lines 4))
    as [(_ & _ & Ha & _) (_ & Hb & _)]; [lia|reflexivity|reflexivity|].
  split_and!; [lia|exact Ha|exact Hb].
Defined.

(** C6, as stated, fails for the second widget: its initial sequence is not
    monotonic.  With three lines it is [1, 0.2, 0.5]: full opacity comes
    first, the faintest line second. *)
Lemma line_gradient_is_not_monotonic :
  ∃ x y z,
    SpinnerB.opacities (SpinnerB.new (SpinnerB.with_lines 3)) = [x; y; z] ∧
    (x == 1)%Q ∧ (y == 0.2)%Q ∧ (z == 0.5)%Q ∧ (y < x)%Q ∧ (y < z)%Q.
Proof.
  eexists _, _, _.
  split_and!; [vm_compute; reflexivity|..]; done.
Qed.

(** C6, amended.  The initial opacity of tick [i] of [N] is [i / N + 0.1]
    in the first widget and [pos * pos * 0.9 + 0.1] with
    [pos = 1 - ((N - i) mod N) / N] in the second.  The first widget's
    sequence is increasing in [i], and for [N = 4] it is
    [0.1, 0.35, 0.6, 0.85] (also when the formula is evaluated in binary64:
    the results are the doubles these literals denote).  The second widget's sequence has full opacity
    [1] at index [0], equals [(i / N)^2 * 0.9 + 0.1] and is increasing over
    the indices [1 .. N-1], and lies between [0.1] and [1]: it is a
    faint-to-full gradient read from index [1] round to index [0]. *)
Theorem initial_opacity_gradient
    (N : Z) (u : option SpinnerA.UserOptions) (o : SpinnerB.Options) :
  (0 < N)%Z →
  SpinnerA.ticks (SpinnerA.resolve u) = N →
  SpinnerB.lines o = N →
  let a := SpinnerA.new u in
  let b := SpinnerB.new o in
  ((∀ i m, SpinnerA.modifiers a !! i = Some m →
      SpinnerA.opacity m = (inject_Z (Z.of_nat i) / inject_Z N + 0.1)%Q) ∧
   (∀ i j x y, SpinnerA.opacities a !! i = Some x →
      SpinnerA.opacities a !! j = Some y → i < j → (x < y)%Q) ∧
   (N = 4%Z →
      Forall2 Qeq (SpinnerA.opacities a) [0.1; 0.35; 0.6; 0.85]%Q) ∧
   SpinnerA.tick_opacity_binary64 4 <$> [0; 1; 2; 3]%float
     = [0.1; 0.35; 0.6; 0.85]%float)
  ∧
  ((∀ i m, SpinnerB.spinLineModifiers b !! i = Some m →
      SpinnerB.opacity m =
        (let pos := 1 - inject_Z ((N - Z.of_nat i) `mod` N) / inject_Z N in
         pos * pos * 0.9 + 0.1)%Q) ∧
   (∀ x, SpinnerB.opacities b !! 0 = Some x → (x == 1)%Q) ∧
   (∀ i x, SpinnerB.opacities b !! i = Some x → 1 ≤ i →
      (x == inject_Z (Z.of_nat i) / inject_Z N
            * (inject_Z (Z.of_nat i) / inject_Z N) * 0.9 + 0.1)%Q) ∧
   (∀ i j x y, SpinnerB.opacities b !! i = Some x →
      SpinnerB.opacities b !! j = Some y → 1 ≤ i → i < j → (x < y)%Q) ∧
   (∀ i x, SpinnerB.opacities b !! i = Some x → (0.1 <= x ∧ x <= 1)%Q)).
Proof.
  intros HN Hu Ho a b. split.
  - assert (∀ i x, SpinnerA.opacities a !! i = Some x →
              i < Z.to_nat N ∧ x = SpinnerA.tick_opacity N i) as Hop.
    { intros i x. subst a. rewrite TickRing.new_opacities.
      unfold TickRing.gradient, TickRing.tick_count. rewrite Hu.
      rewrite list_lookup_fmap.
      destruct (seq 0 (Z.to_nat N) !! i) as [k|] eqn:E; [|done].
      apply lookup_seq in E as [-> Hi]. simpl. by intros [= <-]. }
    split_and!.
    + intros i m Hm.
      destruct (Hop i (SpinnerA.opacity m)) as [_ ->]; [|done].
      unfold SpinnerA.opacities. by rewrite list_lookup_fmap, Hm.
    + intros i j x y [_ ->]%Hop [_ ->]%Hop Hij. by apply tick_opacity_lt.
    + intros ->. subst a. rewrite TickRing.new_opacities.
      unfold TickRing.gradient, TickRing.tick_count. rewrite Hu.
      repeat constructor.
    + vm_compute. reflexivity.
  - assert (∀ i x, SpinnerB.opacities b !! i = Some x →
              i < Z.to_nat N ∧
              x = (pos_of N (Z.of_nat i) * pos_of N (Z.of_nat i) * 0.9 + 0.1)%Q)
      as Hop.
    { intros i x. subst b. rewrite LineRing.new_line_opacities.
      unfold LineRing.gradient_at, LineRing.line_count. rewrite Ho.
      rewrite list_lookup_fmap.
      destruct (seq 0 (Z.to_nat N) !! i) as [k|] eqn:E; [|done].
      apply lookup_seq in E as [-> Hi]. simpl. intros [= <-].
      split; [done|]. rewrite Z2Nat.id by lia.
      apply spinLineOpacity_pos; lia. }
    split_and!.
    + intros i m Hm.
      destruct (Hop i (SpinnerB.opacity m)) as [_ ->]; [|done].
      unfold SpinnerB.opacities. by rewrite list_lookup_fmap, Hm.
    + intros x [_ ->]%Hop. change (Z.of_nat 0) with 0%Z.
      rewrite (pos_of_0 N HN). lra.
    + intros i x [Hi ->]%Hop H1. by rewrite (pos_of_inner N HN) by lia.
    + intros i j x y [Hi ->]%Hop [Hj ->]%Hop H1 Hij.
      pose proof (pos_of_range N HN (Z.of_nat i) ltac:(lia)) as [H0 _].
      pose proof (pos_of_lt N HN (Z.of_nat i) (Z.of_nat j) ltac:(lia) ltac:(lia))
        as Hlt.
      assert (pos_of N (Z.of_nat i) * pos_of N (Z.of_nat i)
              < pos_of N (Z.of_nat j) * pos_of N (Z.of_nat j))%Q
        by (by apply Qmult_lt_compat_nonneg).
      lra.
    + intros i x [Hi ->]%Hop.
      pose proof (pos_of_range N HN (Z.of_nat i) ltac:(lia)) as [H0 H1].
      split; nra.
Qed.

Lemma initial_opacity_gradient_witness :
  (0 < 4)%Z ∧
  Forall2 Qeq (SpinnerA.opacities (SpinnerA.new (SpinnerA.with_ticks 4)))
    [0.1; 0.35; 0.6; 0.85]%Q.
Proof.
  destruct (initial_opacity_gradient 4 (SpinnerA.with_ticks 4)
              (SpinnerB.with_lines 4))
    as [(_ & _ & H4 & _) _]; [lia|reflexivity|reflexivity|].
  split; [lia|]. exact (H4 eq_refl).
Defined.

(** C7.  Whatever events came before (any number of scheduler ticks, fades,
    starts), [reset(cb)] with [cb] absent or a function returns, and leaves
    every spin line at its initial opacity (the phase-0 gradient) and every
    rotate modifier at its initial opacity [1] with no fade pending; it
    then stops the widget: the interval held in [spinInterval] is cleared
    and the callback, when given, is invoked once. *)
Theorem reset_restores_initial_gradient
    (o : SpinnerB.Options) (es : list SpinnerB.event) (s : SpinnerB.Spinner)
    (cb : SpinnerB.value) :
  SpinnerB.run es (SpinnerB.new o) = Ok s →
  (∀ q, cb = SpinnerB.number q → Qeq_bool q 0 = true) →
  ∃ s', SpinnerB.reset cb s = Ok s' ∧
    SpinnerB.opacities s' = SpinnerB.opacities (SpinnerB.new o) ∧
    SpinnerB.visibilities s' = SpinnerB.visibilities (SpinnerB.new o) ∧
    Forall (λ m, SpinnerB.queue m = []) (SpinnerB.rotateModifiers s') ∧
    SpinnerB.intervals s' =
      match SpinnerB.spinInterval s with
      | Some h => filter (λ iv, SpinnerB.handle iv ≠ h) (SpinnerB.intervals s)
      | None => SpinnerB.intervals s
      end ∧
    SpinnerB.calls s' = SpinnerB.calls s ++
      match cb with
      | SpinnerB.function f => [f]
      | _ => []
      end.
Proof.
  intros Hrun Hcb.
  pose proof (LineRing.reachable_wf _ _ _ Hrun) as [_ Hl Hr _ _].
  destruct (LineRing.reset_Ok cb s) as [s' E]; [congruence|done|].
  exists s'. split; [done|].
  apply LineRing.reset_spec in E as (Hop & Hv & Hq & _ & Hi & Hc); [|congruence].
  rewrite Hop, Hv, Hl, LineRing.new_line_opacities, LineRing.new_visibilities.
  by split_and!.
Qed.

Lemma reset_restores_initial_gradient_witness :
  ∃ s s',
    SpinnerB.run [SpinnerB.Start; SpinnerB.Tick 0; SpinnerB.Tick 0;
                  SpinnerB.Tick 0; SpinnerB.Fade [SpinnerB.number 300;
                                                  SpinnerB.undefined]]
      (SpinnerB.new (SpinnerB.with_lines 4)) = Ok s ∧
    SpinnerB.reset (SpinnerB.function 7) s = Ok s' ∧
    SpinnerB.opacities s'
      = SpinnerB.opacities (SpinnerB.new (SpinnerB.with_lines 4)) ∧
    SpinnerB.calls s' = [7].
Proof.
  let r := eval vm_compute in
    (SpinnerB.run [SpinnerB.Start; SpinnerB.Tick 0; SpinnerB.Tick 0;
                   SpinnerB.Tick 0; SpinnerB.Fade [SpinnerB.number 300;
                                                   SpinnerB.undefined]]
       (SpinnerB.new (SpinnerB.with_lines 4))) in
  match r with
  | Ok ?x =>
      destruct (reset_restores_initial_gradient (SpinnerB.with_lines 4)
                  [SpinnerB.Start; SpinnerB.Tick 0; SpinnerB.Tick 0;
                   SpinnerB.Tick 0; SpinnerB.Fade [SpinnerB.number 300;
                                                   SpinnerB.undefined]]
                  x (SpinnerB.function 7))
        as (s' & E & Hop & _ & _ & _ & Hc);
        [vm_compute; reflexivity|discriminate|
         exists x, s';
         split_and!; [vm_compute; reflexivity|exact E|exact Hop|exact Hc]]
  end.
Defined.

(** C8, as stated, fails when the callback is left out: [fade(500)] is a
    call with one argument, which the code takes as the callback; the
    transitions then run over [options.fadeDuration] (1000 by default), not
    over 500, and the completion of element [0] calls [500], which raises. *)
Lemma fade_without_callback_ignores_the_duration :
  ∃ m tr,
    SpinnerB.rotateModifiers
      (SpinnerB.fade [SpinnerB.number 500]
         (SpinnerB.new SpinnerB.DEFAULT_OPTIONS)) !! 0 = Some m ∧
    SpinnerB.queue m = [tr] ∧
    SpinnerB.duration tr = SpinnerB.number 1000 ∧
    SpinnerB.transition_callback tr = Some (SpinnerB.number 500) ∧
    SpinnerB.run [SpinnerB.Fade [SpinnerB.number 500]; SpinnerB.TransitionEnd 0]
      (SpinnerB.new SpinnerB.DEFAULT_OPTIONS) = TypeError.
Proof.
  eexists _, _. split_and!; [vm_compute; reflexivity|reflexivity..].
Qed.

(** C8, amended.  Called with both arguments, [fade(duration, callback)]
    queues on every rotate modifier a transition of its opacity to [0] over
    the given duration with the configured curve; only the transition of
    index [0] carries a completion callback, [stop] bound to [callback].  On
    a widget with [N >= 1] lines and no fade pending, once the [N]
    transitions have completed, in whatever order [p], every line's opacity
    is [0] and the callback [f] has been invoked exactly once. *)
Theorem fade_with_two_arguments_calls_back_once
    (s : SpinnerB.Spinner) (d : SpinnerB.value) (f : nat) (p : list nat) :
  let N := length (SpinnerB.rotateModifiers s) in
  0 < N →
  Forall (λ m, SpinnerB.queue m = []) (SpinnerB.rotateModifiers s) →
  p ≡ₚ seq 0 N →
  let s1 := SpinnerB.fade [d; SpinnerB.function f] s in
  (∀ i m0, SpinnerB.rotateModifiers s !! i = Some m0 →
     SpinnerB.rotateModifiers s1 !! i =
     Some {| SpinnerB.transform := SpinnerB.transform m0;
             SpinnerB.opacity := SpinnerB.opacity m0;
             SpinnerB.queue :=
               [ {| SpinnerB.target := 0; SpinnerB.duration := d;
                    SpinnerB.curve := SpinnerB.fadeCurve (SpinnerB.options s);
                    SpinnerB.transition_callback :=
                      if (i =? 0)%nat then Some (SpinnerB.function f)
                      else None |} ] |}) ∧
  length (SpinnerB.rotateModifiers s1) = N ∧
  ∃ s', SpinnerB.run (SpinnerB.TransitionEnd <$> p) s1 = Ok s' ∧
    SpinnerB.visibilities s' = replicate N 0%Q ∧
    SpinnerB.calls s' = SpinnerB.calls s ++ [f] ∧
    SpinnerB.opacities s' = SpinnerB.opacities s.
Proof.
  intros N HN Hq Hp s1.
  assert (∀ i m0, SpinnerB.rotateModifiers s !! i = Some m0 →
     SpinnerB.rotateModifiers s1 !! i =
     Some {| SpinnerB.transform := SpinnerB.transform m0;
             SpinnerB.opacity := SpinnerB.opacity m0;
             SpinnerB.queue := [LineRing.fade_transition s d
                                  (SpinnerB.function f) i] |}) as Hs1.
  { intros i m0 Hm0. subst s1. rewrite LineRing.fade_two_arguments. simpl.
    rewrite list_lookup_imap, Hm0. simpl.
    rewrite list.Forall_forall in Hq.
    by rewrite (Hq m0) by (by eapply list_elem_of_lookup_2). }
  assert (length (SpinnerB.rotateModifiers s1) = N) as Hlen.
  { subst s1. rewrite LineRing.fade_two_arguments. simpl.
    by rewrite length_imap. }
  split_and!; [exact Hs1|exact Hlen|].
  destruct (LineRing.run_fade_completions f p s1)
    as (s' & Hrun & Hc & Hl & Hlen' & Hin & _).
  { rewrite Hp. apply NoDup_seq. }
  { intros i Hi. rewrite Hp, elem_of_seq in Hi.
    destruct (lookup_lt_is_Some_2 (SpinnerB.rotateModifiers s) i) as [m0 Hm0];
      [fold N; lia|].
    eexists _, _. split; [by apply Hs1|]. done. }
  exists s'. split_and!.
  - done.
  - apply list_eq. intros i. unfold SpinnerB.visibilities.
    rewrite list_lookup_fmap.
    destruct (decide (i < N)) as [Hi|Hi].
    + rewrite Hin by (rewrite Hp, elem_of_seq; lia).
      by rewrite lookup_replicate_2.
    + rewrite (lookup_ge_None_2 (SpinnerB.rotateModifiers s')) by lia.
      symmetry. apply lookup_replicate_None. lia.
  - rewrite Hc. rewrite decide_True; [done|]. rewrite Hp, elem_of_seq. lia.
  - unfold SpinnerB.opacities. rewrite Hl. subst s1.
    by rewrite LineRing.fade_two_arguments.
Qed.

Lemma fade_with_two_arguments_calls_back_once_witness :
  ∃ s',
    SpinnerB.run (SpinnerB.TransitionEnd <$> [2; 0; 1])
      (SpinnerB.fade [SpinnerB.number 250; SpinnerB.function 5]
         (SpinnerB.new (SpinnerB.with_lines 3))) = Ok s' ∧
    SpinnerB.visibilities s' = [0; 0; 0]%Q ∧
    SpinnerB.calls s' = [5].
Proof.
  edestruct (fade_with_two_arguments_calls_back_once
               (SpinnerB.new (SpinnerB.with_lines 3)) (SpinnerB.number 250) 5
               [2; 0; 1])
    as (_ & _ & s' & Hrun & Hv & Hc & _).
  - vm_compute. lia.
  - vm_compute. repeat constructor.
  - change ([2; 0; 1] ≡ₚ [0; 1; 2]).
    etrans; [apply perm_swap|apply perm_skip, perm_swap].
  - exists s'. split_and!; [exact Hrun|exact Hv|exact Hc].
Defined.

(** C9.  Calling [start()] on a widget that is already started registers a
    second timer beside the first.  First widget: two timeouts are pending,
    [stop()] cancels neither, and while the widget is ON each firing
    reschedules itself, so two stay pending.  Second widget: two intervals
    are registered under distinct handles, [spinInterval] holds only the
    second, and a following [stop()] clears only that one: the first stays
    registered and its callback still runs. *)
Theorem second_start_leaks_a_timer
    (a : SpinnerA.Spinner) (o : SpinnerB.Options)
    (es : list SpinnerB.event) (b : SpinnerB.Spinner) :
  SpinnerB.run es (SpinnerB.new o) = Ok b →
  let h := SpinnerB.next_handle b in
  let n := length (SpinnerB.spinLineModifiers b) in
  let first t := {| SpinnerB.handle := h; SpinnerB.count := n; SpinnerB.t := t |} in
  let second :=
    {| SpinnerB.handle := S h; SpinnerB.count := n; SpinnerB.t := 0 |} in
  (SpinnerA.timeouts (SpinnerA.start (SpinnerA.start a))
     = S (S (SpinnerA.timeouts a)) ∧
   SpinnerA.timeouts (SpinnerA.stop (SpinnerA.start (SpinnerA.start a)))
     = S (S (SpinnerA.timeouts a)) ∧
   (∀ a', SpinnerA.fire (SpinnerA.start (SpinnerA.start a)) = Ok a' →
      SpinnerA.timeouts a' = S (S (SpinnerA.timeouts a))))
  ∧
  (SpinnerB.intervals (SpinnerB.start (SpinnerB.start b))
     = SpinnerB.intervals b ++ [first 0%Z; second] ∧
   SpinnerB.spinInterval (SpinnerB.start (SpinnerB.start b)) = Some (S h) ∧
   ∃ b' b'',
     SpinnerB.stop SpinnerB.undefined (SpinnerB.start (SpinnerB.start b))
       = Ok b' ∧
     SpinnerB.intervals b' = SpinnerB.intervals b ++ [first 0%Z] ∧
     SpinnerB.step (SpinnerB.Tick h) b' = Ok b'' ∧
     SpinnerB.intervals b'' = SpinnerB.intervals b ++ [first 1%Z] ∧
     SpinnerB.opacities b'' = LineRing.gradient_at n 0).
Proof.
  intros Hrun h n first second. split.
  - split_and!; [done..|].
    intros a' (_ & _ & _ & _ & _ & _ & ->)%TickRing.incrementSpinner_list.
    done.
  - pose proof (LineRing.reachable_wf _ _ _ Hrun) as Hwf.
    destruct (LineRing.double_start o b Hwf) as (Hi & Hsp & Hcl).
    assert (LineRing.line_count o = n) as Hn by (symmetry; by destruct Hwf).
    rewrite Hn in Hi, Hcl. split_and!; [done..|].
    destruct (LineRing.stop_Ok SpinnerB.undefined
                (SpinnerB.start (SpinnerB.start b))) as [b' E]; [done|].
    pose proof (LineRing.stop_spec _ _ _ E)
      as (_ & Hl' & _ & _ & _ & Hi' & _).
    rewrite Hcl in Hi'.
    assert (Forall (λ iv, SpinnerB.handle iv ≠ h) (SpinnerB.intervals b))
      as Hfresh.
    { destruct Hwf as [_ _ _ _ Hiv]. eapply Forall_impl; [done|]. simpl.
      intros iv (_ & _ & ?). fold h. lia. }
    destruct (LineRing.interval_callback_spec (first 0%Z) b')
      as (b'' & E' & Hop & _ & _ & Hi'' & _); [by rewrite Hl'|].
    exists b', b''. split_and!; [done|done| | |done].
    + simpl. rewrite Hi', list_find_app_r.
      * simpl. rewrite decide_True by done. done.
      * apply list_find_None. eapply Forall_impl; [exact Hfresh|]. done.
    + rewrite Hi'', Hi', fmap_app. simpl. rewrite decide_True by done.
      f_equal. apply fmap_fixed. eapply Forall_impl; [exact Hfresh|].
      simpl. intros iv Hne. by rewrite decide_False.
Qed.

Lemma second_start_leaks_a_timer_witness :
  ∃ b b',
    SpinnerB.run [SpinnerB.Start; SpinnerB.Tick 0]
      (SpinnerB.new (SpinnerB.with_lines 3)) = Ok b ∧
    SpinnerB.stop SpinnerB.undefined (SpinnerB.start (SpinnerB.start b))
      = Ok b' ∧
    SpinnerB.handle <$> SpinnerB.intervals b' = [0; 1].
Proof.
  let r := eval vm_compute in
    (SpinnerB.run [SpinnerB.Start; SpinnerB.Tick 0]
       (SpinnerB.new (SpinnerB.with_lines 3))) in
  match r with
  | Ok ?x =>
      destruct (second_start_leaks_a_timer
                  (SpinnerA.new (SpinnerA.with_ticks 3))
                  (SpinnerB.with_lines 3)
                  [SpinnerB.Start; SpinnerB.Tick 0] x)
        as (_ & _ & _ & b' & _ & E & Hi & _);
        [vm_compute; reflexivity|
         exists x, b'; split_and!;
         [vm_compute; reflexivity|exact E|by rewrite Hi]]
  end.
Defined.

(** C10.  In the second widget, [fade] called with a single argument takes
    that argument as the completion callback and fades over
    [options.fadeDuration], whose default is 1000; called with two
    arguments it fades over the first and calls back the second. *)
Theorem fade_single_argument_is_the_callback
    (s : SpinnerB.Spinner) (x d cb : SpinnerB.value) :
  SpinnerB.fade [x] s =
    SpinnerB.fade [SpinnerB.number (SpinnerB.fadeDuration (SpinnerB.options s)); x] s ∧
  SpinnerB.fadeDuration SpinnerB.DEFAULT_OPTIONS = 1000%Q ∧
  (∀ i m0, SpinnerB.rotateModifiers s !! i = Some m0 →
     SpinnerB.rotateModifiers (SpinnerB.fade [x] s) !! i =
     Some {| SpinnerB.transform := SpinnerB.transform m0;
             SpinnerB.opacity := SpinnerB.opacity m0;
             SpinnerB.queue := SpinnerB.queue m0 ++
               [ {| SpinnerB.target := 0;
                    SpinnerB.duration :=
                      SpinnerB.number (SpinnerB.fadeDuration (SpinnerB.options s));
                    SpinnerB.curve := SpinnerB.fadeCurve (SpinnerB.options s);
                    SpinnerB.transition_callback :=
                      if (i =? 0)%nat then Some x else None |} ] |}) ∧
  (∀ i m0, SpinnerB.rotateModifiers s !! i = Some m0 →
     SpinnerB.rotateModifiers (SpinnerB.fade [d; cb] s) !! i =
     Some {| SpinnerB.transform := SpinnerB.transform m0;
             SpinnerB.opacity := SpinnerB.opacity m0;
             SpinnerB.queue := SpinnerB.queue m0 ++
               [ {| SpinnerB.target := 0;
                    SpinnerB.duration := d;
                    SpinnerB.curve := SpinnerB.fadeCurve (SpinnerB.options s);
                    SpinnerB.transition_callback :=
                      if (i =? 0)%nat then Some cb else None |} ] |}).
Proof.
  split_and!.
  - apply LineRing.fade_one_argument.
  - reflexivity.
  - intros i m0 Hm0.
    rewrite LineRing.fade_one_argument, LineRing.fade_two_arguments. simpl.
    by rewrite list_lookup_imap, Hm0.
  - intros i m0 Hm0. rewrite LineRing.fade_two_arguments. simpl.
    by rewrite list_lookup_imap, Hm0.
Qed.



(** X2.  The first widget's scheduler raises exactly on an empty ring:
    built with at least one tick, no sequence of calls and timer events
    raises; built with [ticks <= 0], the first firing after [start()]
    raises a [TypeError], because [shift()] on the empty array yields
    [undefined] and [setOpacity] is then called on it. *)
Theorem scheduler_raises_only_on_an_empty_ring
    (u v : option SpinnerA.UserOptions) (es : list SpinnerA.event) :
  (0 < SpinnerA.ticks (SpinnerA.resolve u))%Z →
  (SpinnerA.ticks (SpinnerA.resolve v) ≤ 0)%Z →
  (∃ s, SpinnerA.run es (SpinnerA.new u) = Ok s) ∧
  SpinnerA.run [SpinnerA.Start; SpinnerA.Timeout] (SpinnerA.new v) = TypeError.
Proof.
  intros Hu Hv. split.
  - eapply TickRing.run_total; [done|apply TickRing.at_phase_new].
  - simpl. unfold SpinnerA.fire. simpl. unfold SpinnerA.incrementSpinner.
    simpl. rewrite TickRing.new_tickOpacityModifiers.
    unfold TickRing.tick_count.
    by replace (Z.to_nat (SpinnerA.ticks (SpinnerA.resolve v))) with 0 by lia.
Qed.

Lemma scheduler_raises_only_on_an_empty_ring_witness :
  (∃ s, SpinnerA.run [SpinnerA.Start; SpinnerA.Timeout; SpinnerA.Timeout]
          (SpinnerA.new (SpinnerA.with_ticks 2)) = Ok s) ∧
  SpinnerA.run [SpinnerA.Start; SpinnerA.Timeout]
    (SpinnerA.new (SpinnerA.with_ticks 0)) = TypeError.
Proof.
  apply (scheduler_raises_only_on_an_empty_ring
           (SpinnerA.with_ticks 2) (SpinnerA.with_ticks 0)); vm_compute; done.
Defined.

(* ===================================================================== *)
(** * Further properties of the two widgets                              *)
(* ===================================================================== *)

(** X3.  After [stop()] the timeouts that were pending still fire, once
    each: every one rotates the ring by one step and none reschedules
    itself, so after exactly as many firings as were pending the widget is
    OFF and hidden with nothing pending, and from then on no timer event
    changes it. *)
Theorem stop_lets_pending_timeouts_run_out
    (u : option SpinnerA.UserOptions) (es : list SpinnerA.event)
    (s : SpinnerA.Spinner) (k : nat) :
  (0 < SpinnerA.ticks (SpinnerA.resolve u))%Z →
  SpinnerA.run es (SpinnerA.new u) = Ok s →
  ∃ s1,
    SpinnerA.run (SpinnerA.Stop :: repeat SpinnerA.Timeout (SpinnerA.timeouts s)) s
      = Ok s1 ∧
    SpinnerA.timeouts s1 = 0 ∧
    SpinnerA.spinnerState s1 = SpinnerA.OFF ∧
    SpinnerA.shown s1 = false ∧
    rotate (SpinnerA.timeouts s) (SpinnerA.opacities s1) = SpinnerA.opacities s ∧
    SpinnerA.run (repeat SpinnerA.Timeout k) s1 = Ok s1.
Proof.
  intros HN Hrun.
  destruct (TickRing.reachable_at_phase _ _ _ Hrun) as [p Hp].
  destruct (TickChains.run_drain u (SpinnerA.timeouts s) p (SpinnerA.stop s))
    as (s1 & E & Hp1 & Hoff & Hto & Hsh);
    [done|by apply TickRing.at_phase_stop|done|done|].
  exists s1. simpl. split_and!; [done..| |by apply TickChains.run_idle].
  by eapply TickChains.at_phase_opacities_between.
Qed.

Lemma stop_lets_pending_timeouts_run_out_witness :
  ∃ s s1,
    SpinnerA.run [SpinnerA.Start; SpinnerA.Timeout; SpinnerA.Start]
      (SpinnerA.new (SpinnerA.with_ticks 4)) = Ok s ∧
    SpinnerA.run (SpinnerA.Stop :: repeat SpinnerA.Timeout 2) s = Ok s1 ∧
    SpinnerA.timeouts s1 = 0 ∧
    SpinnerA.run (repeat SpinnerA.Timeout 3) s1 = Ok s1.
Proof.
  let r := eval vm_compute in
    (SpinnerA.run [SpinnerA.Start; SpinnerA.Timeout; SpinnerA.Start]
       (SpinnerA.new (SpinnerA.with_ticks 4))) in
  match r with
  | Ok ?x =>
      destruct (stop_lets_pending_timeouts_run_out (SpinnerA.with_ticks 4)
                  [SpinnerA.Start; SpinnerA.Timeout; SpinnerA.Start] x 3)
        as (s1 & E & Hto & _ & _ & _ & Hidle);
        [vm_compute; reflexivity|vm_compute; reflexivity|
         exists x, s1; split_and!;
         [vm_compute; reflexivity|exact E|exact Hto|exact Hidle]]
  end.
Defined.

(** X4.  [stop()] does not cancel the pending timeout, so [start()],
    [stop()], [start()] in a row, before the first timeout fires, leaves two
    more timeouts pending than before with the widget ON; each of them
    reschedules itself whenever it fires, so both chains persist, and every
    firing still rotates the ring by one step. *)
Theorem restart_before_the_tick_doubles_the_chain
    (u : option SpinnerA.UserOptions) (es : list SpinnerA.event)
    (s : SpinnerA.Spinner) (k : nat) :
  (0 < SpinnerA.ticks (SpinnerA.resolve u))%Z →
  SpinnerA.run es (SpinnerA.new u) = Ok s →
  ∃ s',
    SpinnerA.run ([SpinnerA.Start; SpinnerA.Stop; SpinnerA.Start]
                  ++ repeat SpinnerA.Timeout k) s = Ok s' ∧
    SpinnerA.timeouts s' = S (S (SpinnerA.timeouts s)) ∧
    SpinnerA.spinnerState s' = SpinnerA.ON ∧
    rotate k (SpinnerA.opacities s') = SpinnerA.opacities s.
Proof.
  intros HN Hrun.
  destruct (TickRing.reachable_at_phase _ _ _ Hrun) as [p Hp].
  set (s3 := SpinnerA.start (SpinnerA.stop (SpinnerA.start s))).
  destruct (TickChains.run_fires_on u k p s3)
    as (s' & E & Hp' & Hon & Hto & _); [done| |done|simpl; lia|].
  { by apply TickRing.at_phase_start, TickRing.at_phase_stop,
      TickRing.at_phase_start. }
  exists s'. split_and!; [exact E|done|done|].
  by eapply TickChains.at_phase_opacities_between.
Qed.

Lemma restart_before_the_tick_doubles_the_chain_witness :
  ∃ s',
    SpinnerA.run ([SpinnerA.Start; SpinnerA.Stop; SpinnerA.Start]
                  ++ repeat SpinnerA.Timeout 5)
      (SpinnerA.new (SpinnerA.with_ticks 3)) = Ok s' ∧
    SpinnerA.timeouts s' = 2.
Proof.
  destruct (restart_before_the_tick_doubles_the_chain (SpinnerA.with_ticks 3)
              [] (SpinnerA.new (SpinnerA.with_ticks 3)) 5)
    as (s' & E & Hto & _); [vm_compute; reflexivity|reflexivity|].
  exists s'. split; [exact E|exact Hto].
Defined.

(** X5.  In every state the first widget reaches, the run state is ON or
    OFF and the render tree is shown exactly when it is ON. *)
Theorem widget_is_shown_exactly_when_on
    (u : option SpinnerA.UserOptions) (es : list SpinnerA.event)
    (s : SpinnerA.Spinner) :
  SpinnerA.run es (SpinnerA.new u) = Ok s →
  (SpinnerA.spinnerState s = SpinnerA.ON ∧ SpinnerA.shown s = true) ∨
  (SpinnerA.spinnerState s = SpinnerA.OFF ∧ SpinnerA.shown s = false).
Proof.
  apply (TickChains.run_invariant TickChains.shown_when_on).
  - apply TickChains.shown_when_on_step.
  - right. split; [apply TickRing.new_spinnerState|].
    unfold SpinnerA.new. cbv zeta.
    match goal with
    | |- context [fold_left (SpinnerA.add_tick ?tw ?th ?ai ?cr) ?l ?s0] =>
        by destruct (TickRing.fold_add_tick tw th ai cr l s0) as (_&_&->&_)
    end.
Qed.

Lemma widget_is_shown_exactly_when_on_witness :
  ∃ s,
    SpinnerA.run [SpinnerA.Start; SpinnerA.Timeout; SpinnerA.Stop;
                  SpinnerA.Timeout; SpinnerA.Start]
      (SpinnerA.new (SpinnerA.with_ticks 3)) = Ok s ∧
    ((SpinnerA.spinnerState s = SpinnerA.ON ∧ SpinnerA.shown s = true) ∨
     (SpinnerA.spinnerState s = SpinnerA.OFF ∧ SpinnerA.shown s = false)).
Proof.
  let r := eval vm_compute in
    (SpinnerA.run [SpinnerA.Start; SpinnerA.Timeout; SpinnerA.Stop;
                   SpinnerA.Timeout; SpinnerA.Start]
       (SpinnerA.new (SpinnerA.with_ticks 3))) in
  match r with
  | Ok ?x =>
      exists x; split;
      [vm_compute; reflexivity|
       apply (widget_is_shown_exactly_when_on (SpinnerA.with_ticks 3)
                [SpinnerA.Start; SpinnerA.Timeout; SpinnerA.Stop;
                 SpinnerA.Timeout; SpinnerA.Start] x);
       vm_compute; reflexivity]
  end.
Defined.



(** X7.  The animation has period [N].  First widget: while it is ON with a
    timeout pending, [N] firings bring back the very same state (the array
    in the same order, every element with the same opacity).  Second
    widget: [N] further ticks of the interval show the same opacities
    again. *)
Theorem animation_has_period_N
    (u : option SpinnerA.UserOptions) (es : list SpinnerA.event)
    (a : SpinnerA.Spinner) (o : SpinnerB.Options) (k : nat) :
  (0 < SpinnerA.ticks (SpinnerA.resolve u))%Z →
  SpinnerA.run es (SpinnerA.new u) = Ok a →
  SpinnerA.spinnerState a = SpinnerA.ON →
  0 < SpinnerA.timeouts a →
  SpinnerA.run
    (repeat SpinnerA.Timeout (Z.to_nat (SpinnerA.ticks (SpinnerA.resolve u)))) a
    = Ok a ∧
  ∃ b1 b2,
    SpinnerB.run (SpinnerB.Start :: repeat (SpinnerB.Tick 0) (S k))
      (SpinnerB.new o) = Ok b1 ∧
    SpinnerB.run (SpinnerB.Start
                  :: repeat (SpinnerB.Tick 0) (S k + Z.to_nat (SpinnerB.lines o)))
      (SpinnerB.new o) = Ok b2 ∧
    SpinnerB.opacities b2 = SpinnerB.opacities b1.
Proof.
  intros HN Hrun Hon Hto. split.
  - destruct (TickRing.reachable_at_phase _ _ _ Hrun) as [p Hp].
    set (n := Z.to_nat (SpinnerA.ticks (SpinnerA.resolve u))).
    destruct (TickChains.run_fires_on u n p a HN Hp Hon Hto)
      as (a' & E & Hp' & Hon' & Hto' & Hsh').
    rewrite E. f_equal.
    pose proof (TickChains.at_phase_opacities_between _ _ _ _ _ Hp Hp') as Hop.
    pose proof Hp as [Ho Hl Hlen Ht Hr _].
    pose proof Hp' as [Ho' Hl' Hlen' Ht' Hr' _].
    assert (SpinnerA.tickOpacityModifiers a' = SpinnerA.tickOpacityModifiers a)
      as Hlist.
    { rewrite Hl, Hl'. fold (TickRing.tick_count (SpinnerA.resolve u)) in n.
      rewrite <- (rotate_add_length (seq 0 _) p), length_seq. done. }
    assert (SpinnerA.modifiers a' = SpinnerA.modifiers a) as Hmods.
    { apply TickChains.modifiers_eq; [congruence|].
      fold (SpinnerA.opacities a'). fold (SpinnerA.opacities a).
      rewrite <- Hop. symmetry. apply rotate_multiple.
      unfold SpinnerA.opacities. rewrite length_fmap, Hlen'.
      apply Nat.Div0.mod_same. }
    destruct a, a'. simpl in *. congruence.
  - destruct (LineRing.run_line_ticks o (S k)) as (b1 & E1 & _ & _ & _ & Hop1).
    destruct (LineRing.run_line_ticks o (S k + Z.to_nat (SpinnerB.lines o)))
      as (b2 & E2 & _ & _ & _ & Hop2).
    exists b1, b2. split_and!; [done..|].
    rewrite Hop1, Hop2. simpl. apply gradient_at_period.
Qed.

Lemma animation_has_period_N_witness :
  ∃ a,
    SpinnerA.run [SpinnerA.Start; SpinnerA.Timeout]
      (SpinnerA.new (SpinnerA.with_ticks 3)) = Ok a ∧
    SpinnerA.run (repeat SpinnerA.Timeout 3) a = Ok a.
Proof.
  let r := eval vm_compute in
    (SpinnerA.run [SpinnerA.Start; SpinnerA.Timeout]
       (SpinnerA.new (SpinnerA.with_ticks 3))) in
  match r with
  | Ok ?x =>
      destruct (animation_has_period_N (SpinnerA.with_ticks 3)
                  [SpinnerA.Start; SpinnerA.Timeout] x
                  (SpinnerB.with_lines 3) 0)
        as [E _];
        [vm_compute; reflexivity|vm_compute; reflexivity|
         vm_compute; reflexivity|vm_compute; lia|
         exists x; split; [vm_compute; reflexivity|exact E]]
  end.
Defined.

(** X8.  The first constructor lays the ticks out on one circle, pointing
    outward.  The [i]-th render chain holds the [i]-th opacity modifier,
    which is translated to the angle [360 / ticks * i] degrees on the circle
    of radius [size[0] * 0.55], less half the tick height when
    [originCompensation] is set; its rotation modifier turns the tick by a
    quarter turn plus that same angle and has opacity [1]; and every tick
    has the same surface, [round(size[0] * 0.05)] by
    [round(size[1] * 0.3)], in the configured colour. *)
Theorem ticks_lie_on_one_circle_pointing_outward
    (u : option SpinnerA.UserOptions) (i : nat)
    (c : SpinnerA.RenderChain) (m : SpinnerA.StateModifier) :
  SpinnerA.renderNode (SpinnerA.new u) !! i = Some c →
  SpinnerA.modifiers (SpinnerA.new u) !! SpinnerA.chain_opacityModifier c
    = Some m →
  let o := SpinnerA.resolve u in
  let tickHeight := Math_round (snd (SpinnerA.size o) * 0.3) in
  SpinnerA.chain_opacityModifier c = i ∧
  SpinnerA.transform m =
    SpinnerA.translate_polar
      (fst (SpinnerA.size o) * 0.55
       - (if SpinnerA.originCompensation o then inject_Z tickHeight / 2 else 0))%Q
      (360 / inject_Z (SpinnerA.ticks o) * inject_Z (Z.of_nat i))%Q ∧
  (∃ r, SpinnerA.transform (SpinnerA.chain_rotationModifier c)
          = SpinnerA.rotateZ r ∧
        (r * 180 == 90 + SpinnerA.degrees_of m)%Q) ∧
  SpinnerA.opacity (SpinnerA.chain_rotationModifier c) = 1%Q ∧
  SpinnerA.chain_surface c =
    {| SpinnerA.surface_size :=
         (Math_round (fst (SpinnerA.size o) * 0.05), tickHeight);
       SpinnerA.backgroundColor := SpinnerA.color o |}.
Proof.
  intros Hc Hm o tickHeight.
  rewrite TickLayout.new_chains, list_lookup_fmap in Hc.
  destruct (seq 0 _ !! i) as [j|] eqn:E; [|done].
  apply lookup_seq in E as [-> Hi]. simpl in Hc. injection Hc as <-.
  simpl in Hm. rewrite TickRing.new_modifiers, list_lookup_fmap in Hm.
  rewrite lookup_seq_lt in Hm by done. simpl in Hm. injection Hm as <-.
  split_and!; try done.
  eexists. split; [done|].
  unfold SpinnerA.degrees_of, TickRing.tick_modifier, SpinnerA.angleIncrement.
  simpl. fold o. field.
  unfold TickRing.tick_count in Hi. fold o in Hi.
  intros Hz.
  assert (SpinnerA.ticks o = 0%Z) by (by apply inject_Z_injective). lia.
Qed.

Lemma ticks_lie_on_one_circle_pointing_outward_witness :
  ∃ c m,
    SpinnerA.renderNode (SpinnerA.new (SpinnerA.with_ticks 4)) !! 1 = Some c ∧
    SpinnerA.modifiers (SpinnerA.new (SpinnerA.with_ticks 4))
      !! SpinnerA.chain_opacityModifier c = Some m ∧
    SpinnerA.chain_opacityModifier c = 1.
Proof.
  let rc := eval vm_compute in
    (SpinnerA.renderNode (SpinnerA.new (SpinnerA.with_ticks 4)) !! 1) in
  let rm := eval vm_compute in
    (SpinnerA.modifiers (SpinnerA.new (SpinnerA.with_ticks 4)) !! 1) in
  match rc with
  | Some ?c =>
      match rm with
      | Some ?m =>
          destruct (ticks_lie_on_one_circle_pointing_outward
                      (SpinnerA.with_ticks 4) 1 c m)
            as (Ht & _);
            [vm_compute; reflexivity|vm_compute; reflexivity|
             exists c, m; split_and!;
             [vm_compute; reflexivity|vm_compute; reflexivity|exact Ht]]
      end
  end.
Defined.

(** X9.  [spin(t, cb)] starts the spinner and registers a timeout that
    stops it: from any state the widget reaches, after [spin], any number
    [k] of ticks of the interval it started (the lines then show the phase
    of the last tick), and the firing of its timeout, the interval is
    gone, no timeout of this [spin] is left, and the callback has been
    invoked exactly once. *)
Theorem spin_stops_itself_and_calls_back_once
    (o : SpinnerB.Options) (es : list SpinnerB.event) (b : SpinnerB.Spinner)
    (t : SpinnerB.value) (f k : nat) :
  SpinnerB.run es (SpinnerB.new o) = Ok b →
  ∃ b',
    SpinnerB.run
      (SpinnerB.Spin t (SpinnerB.function f)
       :: repeat (SpinnerB.Tick (SpinnerB.next_handle b)) k
       ++ [SpinnerB.SpinTimeout (length (SpinnerB.stop_timeouts b))]) b
      = Ok b' ∧
    SpinnerB.intervals b' = SpinnerB.intervals b ∧
    SpinnerB.stop_timeouts b' = SpinnerB.stop_timeouts b ∧
    SpinnerB.calls b' = SpinnerB.calls b ++ [f] ∧
    SpinnerB.opacities b' =
      match k with
      | O => SpinnerB.opacities b
      | S k' => LineRing.gradient_at (length (SpinnerB.spinLineModifiers b))
                  (Z.of_nat k')
      end.
Proof.
  intros Hrun. pose proof (LineRing.reachable_wf _ _ _ Hrun) as Hwf.
  set (h := SpinnerB.next_handle b).
  set (n := length (SpinnerB.spinLineModifiers b)).
  set (b1 := SpinnerB.spin t (SpinnerB.function f) b).
  destruct (LineTimers.ticks_newest (SpinnerB.intervals b) h n k 0 b1)
    as (b2 & E2 & Hi2 & Hop2 & Hf2);
    [done|by eapply LineTimers.wf_fresh|done|].
  destruct Hf2 as (_ & _ & Hsp2 & Hst2 & _ & Hc2 & _).
  simpl in Hsp2, Hst2, Hc2.
  set (b3 := SpinnerB.set_stop_timeouts
               (delete (length (SpinnerB.stop_timeouts b))
                  (SpinnerB.stop_timeouts b2)) b2).
  destruct (LineRing.stop_Ok (SpinnerB.function f) b3) as [b' E']; [done|].
  exists b'.
  pose proof (LineRing.stop_spec _ _ _ E')
    as (_ & Hl' & _ & _ & _ & Hi' & Hst' & _ & Hc').
  split_and!.
  - rewrite LineTimers.run_lines_cons.
    change (SpinnerB.step (SpinnerB.Spin t (SpinnerB.function f)) b)
      with (Ok b1).
    cbn [bind]. rewrite LineRing.run_lines_app, E2.
    cbn [bind SpinnerB.run SpinnerB.step].
    assert (SpinnerB.stop_timeouts b2 !! length (SpinnerB.stop_timeouts b)
            = Some (SpinnerB.function f)) as ->
      by (rewrite Hst2; by apply list_lookup_middle).
    fold b3. by rewrite E'.
  - rewrite Hi'. unfold LineRing.cleared. simpl. rewrite Hsp2, Hi2.
    apply (LineTimers.clear_newest _
             {| SpinnerB.handle := h; SpinnerB.count := n;
                SpinnerB.t := (0 + Z.of_nat k)%Z |}).
    by eapply LineTimers.wf_fresh.
  - rewrite Hst'. simpl. by rewrite Hst2, delete_middle, app_nil_r.
  - rewrite Hc'. simpl. by rewrite Hc2.
  - unfold SpinnerB.opacities in *. rewrite Hl'. simpl. rewrite Hop2.
    by destruct k.
Qed.

Lemma spin_stops_itself_and_calls_back_once_witness :
  ∃ b',
    SpinnerB.run
      (SpinnerB.Spin (SpinnerB.number 500) (SpinnerB.function 3)
       :: repeat (SpinnerB.Tick 0) 4 ++ [SpinnerB.SpinTimeout 0])
      (SpinnerB.new (SpinnerB.with_lines 3)) = Ok b' ∧
    SpinnerB.intervals b' = [] ∧ SpinnerB.calls b' = [3].
Proof.
  destruct (spin_stops_itself_and_calls_back_once (SpinnerB.with_lines 3) []
              (SpinnerB.new (SpinnerB.with_lines 3)) (SpinnerB.number 500) 3 4)
    as (b' & E & Hi & _ & Hc & _); [reflexivity|].
  exists b'. split_and!; [exact E|exact Hi|exact Hc].
Defined.

(** X10.  Overlapping [spin] calls leak the first interval.  After two
    [spin] calls in a row, whichever of the two timeouts fires first, both
    callbacks are invoked once, but both [stop]s clear the handle of the
    second interval: the interval the first [spin] started stays
    registered. *)
Theorem overlapping_spins_leak_the_first_interval
    (o : SpinnerB.Options) (es : list SpinnerB.event) (b : SpinnerB.Spinner)
    (t1 t2 : SpinnerB.value) (f1 f2 : nat) :
  SpinnerB.run es (SpinnerB.new o) = Ok b →
  let L := length (SpinnerB.stop_timeouts b) in
  let first :=
    {| SpinnerB.handle := SpinnerB.next_handle b;
       SpinnerB.count := length (SpinnerB.spinLineModifiers b);
       SpinnerB.t := 0 |} in
  let spins := [SpinnerB.Spin t1 (SpinnerB.function f1);
                SpinnerB.Spin t2 (SpinnerB.function f2)] in
  (∃ b', SpinnerB.run
           (spins ++ [SpinnerB.SpinTimeout L; SpinnerB.SpinTimeout L]) b
           = Ok b' ∧
         SpinnerB.intervals b' = SpinnerB.intervals b ++ [first] ∧
         SpinnerB.stop_timeouts b' = SpinnerB.stop_timeouts b ∧
         SpinnerB.calls b' = SpinnerB.calls b ++ [f1; f2]) ∧
  (∃ b', SpinnerB.run
           (spins ++ [SpinnerB.SpinTimeout (S L); SpinnerB.SpinTimeout L]) b
           = Ok b' ∧
         SpinnerB.intervals b' = SpinnerB.intervals b ++ [first] ∧
         SpinnerB.stop_timeouts b' = SpinnerB.stop_timeouts b ∧
         SpinnerB.calls b' = SpinnerB.calls b ++ [f2; f1]).
Proof.
  intros Hrun L first spins.
  pose proof (LineRing.reachable_wf _ _ _ Hrun) as Hwf.
  set (b2 := SpinnerB.spin t2 (SpinnerB.function f2)
               (SpinnerB.spin t1 (SpinnerB.function f1) b)).
  set (second := {| SpinnerB.handle := S (SpinnerB.next_handle b);
                    SpinnerB.count := length (SpinnerB.spinLineModifiers b);
                    SpinnerB.t := 0%Z |}).
  assert (Forall (λ iv, SpinnerB.handle iv ≠ SpinnerB.handle second)
            (SpinnerB.intervals b ++ [first])) as Hfresh.
  { apply Forall_app. split; [|repeat constructor; simpl; lia].
    destruct Hwf as [_ _ _ _ Hiv]. eapply Forall_impl; [exact Hiv|].
    simpl. intros iv (_ & _ & ?). lia. }
  assert (LineRing.cleared b2 = SpinnerB.intervals b ++ [first]) as Hcl.
  { unfold LineRing.cleared. simpl.
    by apply (LineTimers.clear_newest _ second). }
  assert (∀ s, SpinnerB.spinInterval s = Some (SpinnerB.handle second) →
               SpinnerB.intervals s = SpinnerB.intervals b ++ [first] →
               LineRing.cleared s = SpinnerB.intervals b ++ [first]) as Hcl'.
  { intros s Hsp Hi. unfold LineRing.cleared. rewrite Hsp, Hi.
    by apply filter_all_true. }
  split.
  - destruct (LineCallbacks.spin_timeout_fires
                (SpinnerB.stop_timeouts b) f1 [SpinnerB.function f2] b2)
      as (b3 & E3 & Hst3 & Hi3 & Hc3 & Hsp3 & _).
    { simpl. by rewrite <- app_assoc. }
    destruct (LineCallbacks.spin_timeout_fires
                (SpinnerB.stop_timeouts b) f2 [] b3)
      as (b4 & E4 & Hst4 & Hi4 & Hc4 & _); [done|].
    exists b4. split_and!.
    + change (SpinnerB.run (spins ++ _) b)
        with (bind (SpinnerB.step (SpinnerB.SpinTimeout L) b2)
                (SpinnerB.run [SpinnerB.SpinTimeout L])).
      unfold L. rewrite E3. cbn [bind]. rewrite LineTimers.run_lines_cons, E4. reflexivity.
    + rewrite Hi4. apply Hcl'; [by rewrite Hsp3|by rewrite Hi3].
    + by rewrite Hst4, app_nil_r.
    + rewrite Hc4, Hc3. simpl. by rewrite <- app_assoc.
  - destruct (LineCallbacks.spin_timeout_fires
                (SpinnerB.stop_timeouts b ++ [SpinnerB.function f1]) f2 [] b2)
      as (b3 & E3 & Hst3 & Hi3 & Hc3 & Hsp3 & _); [done|].
    rewrite length_app in E3. cbn [length] in E3.
    replace (length (SpinnerB.stop_timeouts b) + 1)
      with (S (length (SpinnerB.stop_timeouts b))) in E3 by lia.
    destruct (LineCallbacks.spin_timeout_fires
                (SpinnerB.stop_timeouts b) f1 [] b3)
      as (b4 & E4 & Hst4 & Hi4 & Hc4 & _); [by rewrite Hst3, app_nil_r|].
    exists b4. split_and!.
    + change (SpinnerB.run (spins ++ _) b)
        with (bind (SpinnerB.step (SpinnerB.SpinTimeout (S L)) b2)
                (SpinnerB.run [SpinnerB.SpinTimeout L])).
      unfold L. rewrite E3. cbn [bind]. rewrite LineTimers.run_lines_cons, E4. reflexivity.
    + rewrite Hi4. apply Hcl'; [by rewrite Hsp3|by rewrite Hi3].
    + by rewrite Hst4, app_nil_r.
    + rewrite Hc4, Hc3. simpl. by rewrite <- app_assoc.
Qed.

Lemma overlapping_spins_leak_the_first_interval_witness :
  ∃ b',
    SpinnerB.run
      [SpinnerB.Spin (SpinnerB.number 500) (SpinnerB.function 1);
       SpinnerB.Spin (SpinnerB.number 200) (SpinnerB.function 2);
       SpinnerB.SpinTimeout 1; SpinnerB.SpinTimeout 0]
      (SpinnerB.new (SpinnerB.with_lines 3)) = Ok b' ∧
    SpinnerB.handle <$> SpinnerB.intervals b' = [0] ∧
    SpinnerB.calls b' = [2; 1].
Proof.
  destruct (overlapping_spins_leak_the_first_interval (SpinnerB.with_lines 3)
              [] (SpinnerB.new (SpinnerB.with_lines 3))
              (SpinnerB.number 500) (SpinnerB.number 200) 1 2)
    as (_ & b' & E & Hi & _ & Hc); [reflexivity|].
  exists b'. split_and!; [exact E|by rewrite Hi|exact Hc].
Defined.

(** X11.  Every [start()] begins at phase [0]: from any state the widget
    reaches, the first tick of the interval a new [start()] registers
    repaints the initial gradient, whatever phase was shown before. *)
Theorem start_repaints_the_initial_gradient
    (o : SpinnerB.Options) (es : list SpinnerB.event) (b : SpinnerB.Spinner) :
  SpinnerB.run es (SpinnerB.new o) = Ok b →
  ∃ b',
    SpinnerB.run [SpinnerB.Start; SpinnerB.Tick (SpinnerB.next_handle b)] b
      = Ok b' ∧
    SpinnerB.spinInterval b' = Some (SpinnerB.next_handle b) ∧
    SpinnerB.opacities b' = SpinnerB.opacities (SpinnerB.new o).
Proof.
  intros Hrun. pose proof (LineRing.reachable_wf _ _ _ Hrun) as Hwf.
  destruct (LineTimers.tick_newest (SpinnerB.intervals b)
              {| SpinnerB.handle := SpinnerB.next_handle b;
                 SpinnerB.count := length (SpinnerB.spinLineModifiers b);
                 SpinnerB.t := 0 |}
              (SpinnerB.start b))
    as (b' & E & _ & Hop & (_ & _ & Hsp & _));
    [done|by eapply LineTimers.wf_fresh|done|].
  simpl in E, Hop, Hsp. exists b'. split_and!.
  - simpl. by rewrite E.
  - done.
  - rewrite Hop, LineRing.new_line_opacities. by destruct Hwf as [_ -> _ _ _].
Qed.

Lemma start_repaints_the_initial_gradient_witness :
  ∃ b b',
    SpinnerB.run [SpinnerB.Start; SpinnerB.Tick 0; SpinnerB.Tick 0;
                  SpinnerB.Tick 0; SpinnerB.Stop SpinnerB.undefined]
      (SpinnerB.new (SpinnerB.with_lines 4)) = Ok b ∧
    SpinnerB.run [SpinnerB.Start; SpinnerB.Tick 1] b = Ok b' ∧
    SpinnerB.opacities b'
      = SpinnerB.opacities (SpinnerB.new (SpinnerB.with_lines 4)).
Proof.
  let r := eval vm_compute in
    (SpinnerB.run [SpinnerB.Start; SpinnerB.Tick 0; SpinnerB.Tick 0;
                   SpinnerB.Tick 0; SpinnerB.Stop SpinnerB.undefined]
       (SpinnerB.new (SpinnerB.with_lines 4))) in
  match r with
  | Ok ?x =>
      destruct (start_repaints_the_initial_gradient (SpinnerB.with_lines 4)
                  [SpinnerB.Start; SpinnerB.Tick 0; SpinnerB.Tick 0;
                   SpinnerB.Tick 0; SpinnerB.Stop SpinnerB.undefined] x)
        as (b' & E & _ & Hop);
        [vm_compute; reflexivity|
         exists x, b'; split_and!;
         [vm_compute; reflexivity|exact E|exact Hop]]
  end.
Defined.

(** X12.  The second widget raises only when it is made to call a number.
    If in every call the callback is absent, falsy or a function ([fade]
    taking its callback from its only argument when called with one), then
    no sequence of calls and timer events raises; and [stop] handed a
    non-zero number always raises a [TypeError]. *)
Theorem widget_raises_only_when_calling_a_number
    (o : SpinnerB.Options) (es : list SpinnerB.event)
    (s : SpinnerB.Spinner) (q : Q) :
  forallb LineCallbacks.safe_event es = true →
  Qeq_bool q 0 = false →
  (∃ s', SpinnerB.run es (SpinnerB.new o) = Ok s') ∧
  SpinnerB.stop (SpinnerB.number q) s = TypeError.
Proof.
  intros Hes Hq. split.
  - apply (LineCallbacks.safe_events_run o); [apply LineRing.wf_new| |done].
    destruct (LineRing.new_timers o) as (_ & _ & Hst & _).
    split; [rewrite Hst; constructor|].
    rewrite LineRing.new_rotateModifiers. apply Forall_fmap, Forall_forall.
    intros i _. simpl. constructor.
  - unfold SpinnerB.stop. simpl. by rewrite Hq.
Qed.

Lemma widget_raises_only_when_calling_a_number_witness :
  (∃ s', SpinnerB.run
           [SpinnerB.Spin (SpinnerB.number 500) SpinnerB.undefined;
            SpinnerB.Tick 0;
            SpinnerB.Fade [SpinnerB.function 4];
            SpinnerB.TransitionEnd 0; SpinnerB.SpinTimeout 0;
            SpinnerB.Reset (SpinnerB.number 0)]
           (SpinnerB.new (SpinnerB.with_lines 2)) = Ok s') ∧
  SpinnerB.stop (SpinnerB.number 500) (SpinnerB.new (SpinnerB.with_lines 2))
    = TypeError.
Proof.
  apply (widget_raises_only_when_calling_a_number (SpinnerB.with_lines 2));
    reflexivity.
Defined.

(** X13.  [fade] stops the spinner only when the fade of line [0]
    completes.  After [fade(d, cb)] with a safe [cb], the completion of the
    transition of a line [i] that had none pending brings that line's
    rotate modifier to opacity [0]; for [i = 0] it also clears the interval
    held in [spinInterval] and invokes [cb] if it is a function, for any
    other line the intervals and the call log are untouched, so the spinner
    keeps ticking while it fades.  On a widget without lines [fade] changes
    nothing, so nothing will ever stop it or call back. *)
Theorem fade_stops_the_spinner_when_line_zero_completes
    (s z : SpinnerB.Spinner) (d cb : SpinnerB.value) (i : nat)
    (m : SpinnerB.Modifier) (arguments : list SpinnerB.value) :
  SpinnerB.rotateModifiers s !! i = Some m →
  SpinnerB.queue m = [] →
  LineCallbacks.safe_callback cb = true →
  SpinnerB.rotateModifiers z = [] →
  (∃ s',
     SpinnerB.step (SpinnerB.TransitionEnd i) (SpinnerB.fade [d; cb] s)
       = Ok s' ∧
     SpinnerB.opacity <$> SpinnerB.rotateModifiers s' !! i = Some 0%Q ∧
     SpinnerB.intervals s' =
       (match i, SpinnerB.spinInterval s with
        | O, Some h =>
            filter (λ iv, SpinnerB.handle iv ≠ h) (SpinnerB.intervals s)
        | _, _ => SpinnerB.intervals s
        end) ∧
     SpinnerB.calls s' = SpinnerB.calls s ++
       (match i, cb with
        | O, SpinnerB.function f => [f]
        | _, _ => []
        end) ∧
     SpinnerB.opacities s' = SpinnerB.opacities s) ∧
  SpinnerB.fade arguments z = z.
Proof.
  intros Hm Hq Hcb Hz. split.
  - set (s1 := SpinnerB.fade [d; cb] s).
    assert (SpinnerB.rotateModifiers s1 !! i =
            Some {| SpinnerB.transform := SpinnerB.transform m;
                    SpinnerB.opacity := SpinnerB.opacity m;
                    SpinnerB.queue := [LineRing.fade_transition s d cb i] |})
      as Hm1.
    { subst s1. rewrite LineRing.fade_two_arguments. simpl.
      rewrite list_lookup_imap, Hm. simpl. by rewrite Hq. }
    simpl. rewrite (LineRing.transition_end_single i _ _ s1 Hm1 eq_refl).
    cbv zeta. simpl.
    match goal with |- context [SpinnerB.set_rotateModifiers ?l s1] =>
      set (s2 := SpinnerB.set_rotateModifiers l s1) end.
    assert (SpinnerB.opacity <$> SpinnerB.rotateModifiers s2 !! i = Some 0%Q)
      as Hop2.
    { simpl. rewrite list_lookup_insert_eq; [done|].
      by eapply lookup_lt_Some. }
    assert (SpinnerB.spinLineModifiers s2 = SpinnerB.spinLineModifiers s)
      as Hl2 by (subst s2 s1; by rewrite LineRing.fade_two_arguments).
    assert (SpinnerB.intervals s2 = SpinnerB.intervals s ∧
            SpinnerB.spinInterval s2 = SpinnerB.spinInterval s ∧
            SpinnerB.calls s2 = SpinnerB.calls s) as (Hi2 & Hsp2 & Hc2)
      by (subst s2 s1; by rewrite LineRing.fade_two_arguments).
    destruct i as [|i]; simpl.
    + destruct (LineCallbacks.safe_callback_stop cb s2 Hcb) as [s' E].
      exists s'. split; [done|].
      apply LineRing.stop_spec in E
        as (_ & Hl' & Hr' & _ & _ & Hi' & _ & _ & Hc').
      unfold SpinnerB.opacities. rewrite Hr', Hi', Hc', Hl', Hl2, Hc2.
      unfold LineRing.cleared, LineRing.logged. rewrite Hsp2, Hi2.
      split_and!; [done|by destruct (SpinnerB.spinInterval s)| |done].
      by destruct cb.
    + exists s2. unfold SpinnerB.opacities. rewrite Hl2, Hi2, Hc2, app_nil_r.
      split_and!; done.
  - unfold SpinnerB.fade. rewrite Hz. simpl.
    destruct (length arguments =? 1)%nat; destruct z; simpl in *; by subst.
Qed.

Lemma fade_stops_the_spinner_when_line_zero_completes_witness :
  ∃ s',
    SpinnerB.step (SpinnerB.TransitionEnd 0)
      (SpinnerB.fade [SpinnerB.number 300; SpinnerB.function 9]
         (SpinnerB.start (SpinnerB.new (SpinnerB.with_lines 2)))) = Ok s' ∧
    SpinnerB.intervals s' = [] ∧ SpinnerB.calls s' = [9].
Proof.
  let rm := eval vm_compute in
    (SpinnerB.rotateModifiers
       (SpinnerB.start (SpinnerB.new (SpinnerB.with_lines 2))) !! 0) in
  match rm with
  | Some ?m =>
      destruct (fade_stops_the_spinner_when_line_zero_completes
                  (SpinnerB.start (SpinnerB.new (SpinnerB.with_lines 2)))
                  (SpinnerB.new (SpinnerB.with_lines 0))
                  (SpinnerB.number 300) (SpinnerB.function 9) 0 m [])
        as [(s' & E & _ & Hi & Hc & _) _];
        [vm_compute; reflexivity|reflexivity|reflexivity|reflexivity|
         exists s'; split_and!; [exact E|exact Hi|exact Hc]]
  end.
Defined.

(** X14.  The View-based widget never shows an opacity outside
    [(0.1, 1]].  With at least one line, in every state the widget reaches
    each line's opacity is above [0.1] and at most [1], and exactly one
    line, the head of the gradient, is fully opaque. *)
Theorem line_opacities_stay_within_one
    (o : SpinnerB.Options) (es : list SpinnerB.event) (s : SpinnerB.Spinner) :
  (0 < SpinnerB.lines o)%Z →
  SpinnerB.run es (SpinnerB.new o) = Ok s →
  Forall (λ x, (0.1 < x)%Q ∧ (x <= 1)%Q) (SpinnerB.opacities s) ∧
  length (filter LineFalloff.full (SpinnerB.opacities s)) = 1.
Proof.
  intros Hn Hrun.
  destruct (LineRing.reachable_wf _ _ _ Hrun) as [_ _ _ [k Hk] _].
  assert (0 < LineRing.line_count o) as Hc
    by (unfold LineRing.line_count; lia).
  destruct (LineFalloff.gradient_at_0_range _ Hc) as [Hall Hone].
  rewrite <- (LineRing.rotate_gradient_at _ k), <- Hk in Hall, Hone.
  split.
  - by rewrite rotate_Permutation in Hall.
  - by rewrite rotate_Permutation in Hone.
Qed.

Lemma line_opacities_stay_within_one_witness :
  ∃ s,
    SpinnerB.run [SpinnerB.Start; SpinnerB.Tick 0; SpinnerB.Tick 0]
      (SpinnerB.new SpinnerB.DEFAULT_OPTIONS) = Ok s ∧
    length (filter LineFalloff.full (SpinnerB.opacities s)) = 1.
Proof.
  let r := eval vm_compute in
    (SpinnerB.run [SpinnerB.Start; SpinnerB.Tick 0; SpinnerB.Tick 0]
       (SpinnerB.new SpinnerB.DEFAULT_OPTIONS)) in
  match r with
  | Ok ?x =>
      exists x; split;
      [vm_compute; reflexivity|
       apply (line_opacities_stay_within_one SpinnerB.DEFAULT_OPTIONS
                [SpinnerB.Start; SpinnerB.Tick 0; SpinnerB.Tick 0] x);
       [reflexivity|vm_compute; reflexivity]]
  end.
Defined.
